(** * Crazy Eights: the game engine of the React application

    A shallow embedding of [types.ts], [gameLogic.ts] and of the state
    transitions of [App.tsx] ([initGame], [drawCard], [playCard],
    [selectSuit]), and the properties of the game-state machine proved about
    them.

    JavaScript arrays are lists in index order (index 0 is the head, the
    element [pop] removes is the last one).  [Math.random] is a tape of the
    values still to come, threaded through the functions that call it.  A
    value the source obtains with a non-null assertion ([pop()!]) is an
    [option]: the operation yields [None] where [undefined] would enter the
    state, and the theorems show that this never happens. *)

From stdpp Require Import base decidable option list strings.

Local Open Scope string_scope.
Local Open Scope nat_scope.
Local Open Scope list_scope.

(** ** types.ts *)

Inductive Suit := HEARTS | DIAMONDS | CLUBS | SPADES.

Inductive Rank :=
  ACE | TWO | THREE | FOUR | FIVE | SIX | SEVEN | EIGHT | NINE | TEN
| JACK | QUEEN | KING.

#[global] Instance Suit_eq_dec : EqDecision Suit.
Proof. solve_decision. Defined.

#[global] Instance Rank_eq_dec : EqDecision Rank.
Proof. solve_decision. Defined.

(** The string value of each enum member. *)
Definition suit_str (s : Suit) : string :=
  match s with
  | HEARTS => "hearts"
  | DIAMONDS => "diamonds"
  | CLUBS => "clubs"
  | SPADES => "spades"
  end.

Definition rank_str (r : Rank) : string :=
  match r with
  | ACE => "A" | TWO => "2" | THREE => "3" | FOUR => "4" | FIVE => "5"
  | SIX => "6" | SEVEN => "7" | EIGHT => "8" | NINE => "9" | TEN => "10"
  | JACK => "J" | QUEEN => "Q" | KING => "K"
  end.

Record CardData := mkCardData { id : string; suit : Suit; rank : Rank }.

#[global] Instance CardData_eq_dec : EqDecision CardData.
Proof. solve_decision. Defined.

Inductive GameStatus := waiting | playing | choosing_suit | game_over.

#[global] Instance GameStatus_eq_dec : EqDecision GameStatus.
Proof. solve_decision. Defined.

(** The union type ['player' | 'ai']. *)
Inductive Side := player | ai.

#[global] Instance Side_eq_dec : EqDecision Side.
Proof. solve_decision. Defined.

Record GameState := mkGameState {
  deck : list CardData;
  discardPile : list CardData;
  playerHand : list CardData;
  aiHand : list CardData;
  currentSuit : option Suit;
  currentTurn : Side;
  status : GameStatus;
  winner : option Side;
  lastAction : string
}.

(** The other side: [turn === 'player' ? 'ai' : 'player']. *)
Definition other (turn : Side) : Side :=
  match turn with player => ai | ai => player end.

(** [prev[turn === 'player' ? 'playerHand' : 'aiHand']]. *)
Definition hand (turn : Side) (s : GameState) : list CardData :=
  match turn with player => playerHand s | ai => aiHand s end.

(** ** JavaScript array operations used by the source *)

Section Arrays.
Context {A : Type}.

(** [a.slice(0, -1)]; also what [a.pop()] leaves in [a]. *)
Definition slice_init (a : list A) : list A := take (length a - 1) a.

(** [a.pop()]: the removed last element ([None] for [undefined], on the
    empty array) and the array it leaves. *)
Definition pop (a : list A) : option A * list A := (last a, slice_init a).

(** [a.splice(0, n)]: the removed elements and the array it leaves. *)
Definition splice0 (n : nat) (a : list A) : list A * list A :=
  (take n a, drop n a).

(** [[a[i], a[j]] = [a[j], a[i]]]: both reads come first, then [a[i]] and
    [a[j]] are written in this order.  The shuffle only calls it with
    [j <= i < a.length]; outside that range (where JavaScript would read
    [undefined]) the list is left as it is. *)
Definition swap (a : list A) (i j : nat) : list A :=
  match a !! j, a !! i with
  | Some a_j, Some a_i => <[j := a_i]> (<[i := a_j]> a)
  | _, _ => a
  end.

(** [a.reduce(f)] with no initial value: [None] stands for the TypeError
    on an empty array. *)
Definition reduce (f : A → A → A) (a : list A) : option A :=
  match a with
  | [] => None
  | x :: rest => Some (foldl f x rest)
  end.
End Arrays.

(** ** Math.random *)

(** The values the coming calls of [Math.random] produce, each given as the
    natural number whose remainder modulo [n] is
    [Math.floor(Math.random() * n)]; an exhausted tape keeps answering 0. *)
Definition Rand := list nat.

(** [Math.floor(Math.random() * n)], a number of [0 .. n-1]. *)
Definition random_below (n : nat) (t : Rand) : nat * Rand :=
  match t with
  | [] => (0, [])
  | r :: t' => (r `mod` n, t')
  end.

(** ** gameLogic.ts *)

Definition suits : list Suit := [HEARTS; DIAMONDS; CLUBS; SPADES].

Definition ranks : list Rank :=
  [ACE; TWO; THREE; FOUR; FIVE; SIX; SEVEN; EIGHT; NINE; TEN;
   JACK; QUEEN; KING].

(** The object literal pushed by [createDeck], with its template-string id. *)
Definition newCard (suit : Suit) (rank : Rank) : CardData :=
  {| id := rank_str rank +:+ "-" +:+ suit_str suit;
     suit := suit;
     rank := rank |}.

(** The two nested [for ... of] loops of [createDeck], before the shuffle. *)
Definition orderedDeck : list CardData :=
  foldl (λ deck suit,
           foldl (λ deck rank, deck ++ [newCard suit rank]) deck ranks)
        [] suits.

(** The loop of [shuffle], [for (let i = ...; i > 0; i--)], from index [i]
    down to 1. *)
Fixpoint shuffle_loop {A : Type} (i : nat) (newArray : list A) (t : Rand)
  : list A * Rand :=
  match i with
  | 0 => (newArray, t)
  | S i' =>
      let '(j, t') := random_below (i + 1) t in
      shuffle_loop i' (swap newArray i j) t'
  end.

Definition shuffle {A : Type} (array : list A) (t : Rand) : list A * Rand :=
  let newArray := array in
  shuffle_loop (length newArray - 1) newArray t.

Definition createDeck (t : Rand) : list CardData * Rand :=
  shuffle orderedDeck t.

Definition isValidMove (card topCard : CardData) (currentSuit : option Suit)
  : bool :=
  if bool_decide (rank card = EIGHT) then true
  else
    let targetSuit := default (suit topCard) currentSuit in
    bool_decide (suit card = targetSuit)
    || bool_decide (rank card = rank topCard).

(** ** App.tsx: the state and its transitions *)

(** The argument of [useState]. *)
Definition initialState : GameState :=
  {| deck := [];
     discardPile := [];
     playerHand := [];
     aiHand := [];
     currentSuit := None;
     currentTurn := player;
     status := waiting;
     winner := None;
     lastAction := "欢迎来到疯狂 8 点！" |}.

(** [turn === 'player' ? '你' : 'AI'] of the status messages. *)
Definition who (turn : Side) : string :=
  match turn with player => "你" | ai => "AI" end.

Definition initGame (t : Rand) : option (GameState * Rand) :=
  let '(fullDeck, t) := createDeck t in
  let '(pHand, fullDeck) := splice0 8 fullDeck in
  let '(aHand, fullDeck) := splice0 8 fullDeck in
  let '(popped, fullDeck) := pop fullDeck in
  firstDiscard ← popped;
  Some ({| deck := fullDeck;
           discardPile := [firstDiscard];
           playerHand := pHand;
           aiHand := aHand;
           currentSuit := None;
           currentTurn := player;
           status := playing;
           winner := None;
           lastAction := "游戏开始！你的回合。" |}, t).

Definition drawCard (turn : Side) (prev : GameState) (t : Rand)
  : option (GameState * Rand) :=
  if bool_decide (length (deck prev) = 0) then
    if bool_decide (length (discardPile prev) ≤ 1) then
      Some ({| deck := deck prev;
               discardPile := discardPile prev;
               playerHand := playerHand prev;
               aiHand := aiHand prev;
               currentSuit := currentSuit prev;
               currentTurn := other turn;
               status := status prev;
               winner := winner prev;
               lastAction := "摸牌堆已空，无法摸牌！" |}, t)
    else
      topCard ← discardPile prev !! (length (discardPile prev) - 1);
      let '(newDeck, t) := shuffle (slice_init (discardPile prev)) t in
      let '(popped, newDeck) := pop newDeck in
      card ← popped;
      Some ({| deck := newDeck;
               discardPile := [topCard];
               playerHand :=
                 match turn with
                 | player => hand turn prev ++ [card]
                 | ai => playerHand prev
                 end;
               aiHand :=
                 match turn with
                 | player => aiHand prev
                 | ai => hand turn prev ++ [card]
                 end;
               currentSuit := currentSuit prev;
               currentTurn := other turn;
               status := status prev;
               winner := winner prev;
               lastAction := who turn +:+ " 摸了一张牌。" |}, t)
  else
    let newDeck := deck prev in
    let '(popped, newDeck) := pop newDeck in
    card ← popped;
    let newHand := hand turn prev ++ [card] in
    Some ({| deck := newDeck;
             discardPile := discardPile prev;
             playerHand :=
               match turn with player => newHand | ai => playerHand prev end;
             aiHand :=
               match turn with player => aiHand prev | ai => newHand end;
             currentSuit := currentSuit prev;
             currentTurn := other turn;
             status := status prev;
             winner := winner prev;
             lastAction := who turn +:+ " 摸了一张牌。" |}, t).

(** The object [counts] of [playCard]: its entries in insertion order, which
    is the order [Object.keys] lists them in. *)
Definition Counts := list (Suit * nat).

Definition counts0 : Counts :=
  [(HEARTS, 0); (DIAMONDS, 0); (CLUBS, 0); (SPADES, 0)].

(** [counts[k]]: [None] for [undefined], on a missing key. *)
Fixpoint counts_get (counts : Counts) (k : Suit) : option nat :=
  match counts with
  | [] => None
  | (k', n) :: rest => if decide (k' = k) then Some n else counts_get rest k
  end.

(** [counts[k]++] on a key that is present: the entry keeps its place. *)
Definition counts_incr (counts : Counts) (k : Suit) : Counts :=
  (λ e : Suit * nat, if decide (e.1 = k) then (e.1, S e.2) else e) <$> counts.

(** [counts[a] > counts[b]]; a comparison with [undefined] is false. *)
Definition counts_gt (counts : Counts) (a b : Suit) : bool :=
  match counts_get counts a, counts_get counts b with
  | Some x, Some y => bool_decide (y < x)
  | _, _ => false
  end.

(** The body of [if (isEight && turn === 'ai')] in [playCard]: the suit the
    computer declares for the hand [newHand] it is left with.  [counts] has
    its four keys, so the [reduce] returns a suit ([chooseSuit_choice]
    below) and [None] is left to mean the [null] of [chosenSuit]. *)
Definition chooseSuit (newHand : list CardData) : option Suit :=
  let counts := foldl (λ counts c, counts_incr counts (suit c)) counts0 newHand in
  reduce (λ a b, if counts_gt counts a b then a else b) (counts.*1).

Definition playCard (card : CardData) (turn : Side) (prev : GameState)
  : GameState :=
  let newHand := filter (λ c, id c ≠ id card) (hand turn prev) in
  let isEight := bool_decide (rank card = EIGHT) in
  let nextStatus :=
    if isEight && bool_decide (turn = player) then choosing_suit else playing in
  let chosenSuit :=
    if isEight && bool_decide (turn = ai) then chooseSuit newHand else None in
  let winner :=
    if bool_decide (length newHand = 0) then Some turn else None in
  {| deck := deck prev;
     discardPile := discardPile prev ++ [card];
     playerHand :=
       match turn with player => newHand | ai => playerHand prev end;
     aiHand :=
       match turn with player => aiHand prev | ai => newHand end;
     currentSuit := chosenSuit;
     currentTurn :=
       if isEight && bool_decide (turn = player) then player else other turn;
     status := if winner is Some _ then game_over else nextStatus;
     winner := winner;
     lastAction :=
       who turn +:+ " 打出了 " +:+ rank_str (rank card)
       +:+ suit_str (suit card) +:+ "。"
       +:+ (if isEight && bool_decide (turn = ai)
            then "AI 指定花色为 "
                 +:+ from_option suit_str "null" chosenSuit +:+ "。"
            else EmptyString) |}.

Definition selectSuit (suit : Suit) (prev : GameState) : GameState :=
  {| deck := deck prev;
     discardPile := discardPile prev;
     playerHand := playerHand prev;
     aiHand := aiHand prev;
     currentSuit := Some suit;
     currentTurn := ai;
     status := playing;
     winner := winner prev;
     lastAction := "你指定花色为 " +:+ suit_str suit +:+ "。" |}.

(** The two buttons that return to the menu:
    [setState(s => ({ ...s, status: 'waiting' }))]. *)
Definition backToMenu (prev : GameState) : GameState :=
  {| deck := deck prev;
     discardPile := discardPile prev;
     playerHand := playerHand prev;
     aiHand := aiHand prev;
     currentSuit := currentSuit prev;
     currentTurn := currentTurn prev;
     status := waiting;
     winner := winner prev;
     lastAction := lastAction prev |}.

(** ** Where the cards are *)

Inductive Location := DrawPile | DiscardPile | PlayerHand | AiHand.

Definition cards_at (loc : Location) (s : GameState) : list CardData :=
  match loc with
  | DrawPile => deck s
  | DiscardPile => discardPile s
  | PlayerHand => playerHand s
  | AiHand => aiHand s
  end.

Definition allCards (s : GameState) : list CardData :=
  deck s ++ discardPile s ++ playerHand s ++ aiHand s.

Definition totalCards (s : GameState) : nat :=
  length (deck s) + length (discardPile s)
  + length (playerHand s) + length (aiHand s).

(** No card identity occurs twice, be it inside one location or in two. *)
Definition distinct_ids (s : GameState) : Prop := NoDup (id <$> allCards s).

(** No card identity is in two of the four locations. *)
Definition partitioned (s : GameState) : Prop :=
  ∀ loc1 loc2 c1 c2,
    c1 ∈ cards_at loc1 s → c2 ∈ cards_at loc2 s → id c1 = id c2 → loc1 = loc2.

(** The states of a game: what [initGame] deals, and from there a draw by
    either side, a play of a card of the mover's hand, a declared suit, or
    the return to the menu. *)
Inductive reachable : GameState → Prop :=
| reach_init t s t' :
    initGame t = Some (s, t') → reachable s
| reach_draw s turn t s' t' :
    reachable s → drawCard turn s t = Some (s', t') → reachable s'
| reach_play s card turn :
    reachable s → card ∈ hand turn s → reachable (playCard card turn s)
| reach_select s suit :
    reachable s → reachable (selectSuit suit s)
| reach_menu s :
    reachable s → reachable (backToMenu s).

(** The partition invariant: 52 cards in all, no identity twice. *)
Definition partition_invariant (s : GameState) : Prop :=
  totalCards s = 52 ∧ distinct_ids s ∧ partitioned s.

(** The state [initGame] deals when [Math.random] follows the tape [t]. *)
Definition dealt (t : Rand) : GameState :=
  from_option fst initialState (initGame t).

(** ** The computer's choice of a suit *)

(** The number of cards of suit [k] in a hand. *)
Definition suit_count (k : Suit) (h : list CardData) : nat :=
  length (filter (λ c, suit c = k) h).

(** The place of a suit in the enumeration
    [hearts, diamonds, clubs, spades] of [Suit] and of the keys of
    [counts]. *)
Definition suit_index (k : Suit) : nat :=
  match k with HEARTS => 0 | DIAMONDS => 1 | CLUBS => 2 | SPADES => 3 end.

(** ** Sample states *)

(** The cards of the deck that are not among [held]. *)
Definition remaining (held : list CardData) : list CardData :=
  filter (λ c, c ∉ held) orderedDeck.

(** A game in progress with the given hands and discard pile, the other
    cards being in the draw pile. *)
Definition table (pHand aHand pile : list CardData) (turn : Side)
  : GameState :=
  {| deck := remaining (pHand ++ aHand ++ pile);
     discardPile := pile;
     playerHand := pHand;
     aiHand := aHand;
     currentSuit := None;
     currentTurn := turn;
     status := playing;
     winner := None;
     lastAction := "游戏开始！你的回合。" |}.

(** The king of hearts is up; the player holds an eight, a heart and a
    club. *)
Definition midgame : GameState :=
  table [newCard SPADES EIGHT; newCard HEARTS FIVE; newCard CLUBS TWO]
        [newCard CLUBS EIGHT; newCard DIAMONDS TWO; newCard DIAMONDS THREE]
        [newCard HEARTS KING] player.

(** Each side is down to its last card. *)
Definition endgame (turn : Side) : GameState :=
  table [newCard HEARTS FIVE] [newCard CLUBS EIGHT] [newCard HEARTS KING] turn.

(** The draw pile has run out; [n] cards lie on the discard pile and the
    hands hold the others. *)
Definition drawn_out (n : nat) : GameState :=
  {| deck := [];
     discardPile := take n orderedDeck;
     playerHand := take 8 (drop n orderedDeck);
     aiHand := drop 8 (drop n orderedDeck);
     currentSuit := None;
     currentTurn := player;
     status := playing;
     winner := None;
     lastAction := "AI 摸了一张牌。" |}.

(** ** App.tsx: the computer's move *)

(** What the timer of the [useEffect] decides on. *)
Inductive AiAction := AiPlay (cardToPlay : CardData) | AiDraw.

(** The body of the timer: the cards of the computer's hand that are valid
    moves, of these the ones that are no eights, and a card of the latter at
    a random index or else the first valid card.  [None] stands for an index
    that reads [undefined]. *)
Definition aiAction (state : GameState) (topCard : CardData) (t : Rand)
  : option (AiAction * Rand) :=
  let playableCards :=
    filter (λ c, isValidMove c topCard (currentSuit state)) (aiHand state) in
  if bool_decide (0 < length playableCards) then
    let nonEights := filter (λ c, rank c ≠ EIGHT) playableCards in
    if bool_decide (0 < length nonEights) then
      let '(j, t') := random_below (length nonEights) t in
      cardToPlay ← nonEights !! j;
      Some (AiPlay cardToPlay, t')
    else
      cardToPlay ← playableCards !! 0;
      Some (AiPlay cardToPlay, t)
  else Some (AiDraw, t).

(** The [useEffect]: when the game is on, the turn is the computer's and
    there is no winner, the timer plays the chosen card or draws.  [topCard]
    is [state.discardPile[state.discardPile.length - 1]] of the state the
    effect was set up for. *)
Definition aiTurn (state : GameState) (topCard : CardData) (t : Rand)
  : option (GameState * Rand) :=
  if bool_decide (status state = playing)
     && bool_decide (currentTurn state = ai)
     && bool_decide (winner state = None)
  then
    '(action, t) ← aiAction state topCard t;
    match action with
    | AiPlay cardToPlay => Some (playCard cardToPlay ai state, t)
    | AiDraw => drawCard ai state t
    end
  else Some (state, t).

(** ** App.tsx: the controls *)

(** [canPlayerMove] of the render. *)
Definition canPlayerMove (state : GameState) (topCard : CardData) : bool :=
  if bool_decide (currentTurn state ≠ player)
     || bool_decide (status state ≠ playing)
  then false
  else existsb (λ c, isValidMove c topCard (currentSuit state))
               (playerHand state).

(** [playable] of a card of the player's hand. *)
Definition playable (state : GameState) (topCard card : CardData) : bool :=
  bool_decide (currentTurn state = player)
  && bool_decide (status state = playing)
  && isValidMove card topCard (currentSuit state).

(** [disabled] of the draw button. *)
Definition drawDisabled (state : GameState) (topCard : CardData) : bool :=
  bool_decide (currentTurn state ≠ player)
  || canPlayerMove state topCard
  || bool_decide (status state ≠ playing).

(** What can happen to the rendered application: a click on one of its
    buttons or cards, or the timer of the computer's move. *)
Inductive Event :=
| ClickStart
| ClickMenu
| ClickDraw
| ClickCard (card : CardData)
| ClickSuit (suit : Suit)
| AiTimer.

(** A modal that [AnimatePresence] keeps mounted, buttons and all, for its
    exit animation ([exit={{ opacity: 0 }}]) after its condition on the
    status has become false. *)
Inductive Exiting := NothingExiting | SuitModalExiting | GameOverModalExiting.

#[global] Instance Exiting_eq_dec : EqDecision Exiting.
Proof. solve_decision. Defined.

(** The state after an event.  An event whose control is not mounted, or is
    disabled, leaves the state as it is.  In the status [waiting] only the
    start screen with its start button is mounted.  In the other statuses
    the render reads [topCard.id], so [None] stands for the TypeError of a
    render with an empty discard pile (and for a failed non-null assertion
    of [initGame] and [drawCard]); the menu button, the draw button and the
    player's cards are rendered; the suit buttons are mounted in the status
    [choosing_suit] and while the suit modal is exiting, the button for
    another game in the status [game_over] and while the game-over modal is
    exiting; [selectSuit] and [initGame] have no condition of their own. *)
Definition dispatch (exiting : Exiting) (e : Event) (state : GameState)
  (t : Rand) : option (GameState * Rand) :=
  if bool_decide (status state = waiting) then
    match e with
    | ClickStart => initGame t
    | _ => Some (state, t)
    end
  else
    topCard ← discardPile state !! (length (discardPile state) - 1);
    match e with
    | ClickStart =>
        if bool_decide (status state = game_over)
           || bool_decide (exiting = GameOverModalExiting)
        then initGame t
        else Some (state, t)
    | ClickMenu => Some (backToMenu state, t)
    | ClickDraw =>
        if drawDisabled state topCard then Some (state, t)
        else if bool_decide (currentTurn state = player)
                && negb (canPlayerMove state topCard)
        then drawCard player state t
        else Some (state, t)
    | ClickCard card =>
        if bool_decide (card ∈ playerHand state)
           && playable state topCard card
        then Some (playCard card player state, t)
        else Some (state, t)
    | ClickSuit suit =>
        if bool_decide (status state = choosing_suit)
           || bool_decide (exiting = SuitModalExiting)
        then Some (selectSuit suit state, t)
        else Some (state, t)
    | AiTimer => aiTurn state topCard t
    end.

(** The modal that is exiting after an event.  A click on a suit button
    closes the suit modal, a click on the button for another game closes
    the game-over modal, and the modal then exits; a click on one of these
    buttons that finds no button keeps what was exiting.  The return to the
    menu unmounts the page with its modals.  A modal lies over the whole
    page ([absolute inset-0 z-50]) while it is mounted and the timer of the
    computer runs 1500 ms, so a click on the page below and the timer are
    taken to come when the exit is over. *)
Definition exiting_after (exiting : Exiting) (e : Event) (state : GameState)
  : Exiting :=
  if bool_decide (status state = waiting) then NothingExiting
  else
    match e with
    | ClickStart =>
        if bool_decide (status state = game_over)
           || bool_decide (exiting = GameOverModalExiting)
        then GameOverModalExiting
        else exiting
    | ClickSuit _ =>
        if bool_decide (status state = choosing_suit)
           || bool_decide (exiting = SuitModalExiting)
        then SuitModalExiting
        else exiting
    | _ => NothingExiting
    end.

(** The runs of the application: its state and the modal that is exiting,
    from the initial state along the events. *)
Inductive ui_run : GameState → Exiting → Prop :=
| run_initial : ui_run initialState NothingExiting
| run_event s exiting e t s' t' :
    ui_run s exiting → dispatch exiting e s t = Some (s', t') →
    ui_run s' (exiting_after exiting e s).

(** The states the application can be in: the initial one and those the
    events lead to. *)
Definition ui_reachable (s : GameState) : Prop := ∃ exiting, ui_run s exiting.

(** The top card of the discard pile is an eight. *)
Definition top_is_eight (s : GameState) : Prop :=
  ∃ topCard, last (discardPile s) = Some topCard ∧ rank topCard = EIGHT.

(** A step of a game played by the rules: nothing, a deal from the menu or
    after a game, the return to the menu, a suit declared when one is asked
    for, and, while the game is on, a play by the side whose turn it is of a
    card of its hand that is a valid move, or a draw by that side when no
    card of its hand is one.  The last two are what a further click on a
    modal that is exiting does: another suit in place of the suit just
    declared, and another deal in place of the deal just made, each before
    any other move. *)
Inductive legal_step (s : GameState) : GameState → Prop :=
| step_none : legal_step s s
| step_deal t s' t' :
    status s = waiting ∨ status s = game_over →
    initGame t = Some (s', t') → legal_step s s'
| step_menu :
    status s ≠ waiting → legal_step s (backToMenu s)
| step_suit suit :
    status s = choosing_suit → legal_step s (selectSuit suit s)
| step_play topCard card :
    status s = playing →
    last (discardPile s) = Some topCard →
    card ∈ hand (currentTurn s) s →
    isValidMove card topCard (currentSuit s) = true →
    legal_step s (playCard card (currentTurn s) s)
| step_draw topCard t s' t' :
    status s = playing →
    last (discardPile s) = Some topCard →
    (∀ c, c ∈ hand (currentTurn s) s →
          isValidMove c topCard (currentSuit s) = false) →
    drawCard (currentTurn s) s t = Some (s', t') → legal_step s s'
| step_suit_again s0 suit0 suit :
    status s0 = choosing_suit → s = selectSuit suit0 s0 →
    legal_step s (selectSuit suit s)
| step_deal_again t0 t0' t s' t' :
    initGame t0 = Some (s, t0') →
    initGame t = Some (s', t') → legal_step s s'.

(** What an exiting modal tells about the state: the suit modal exits from
    a state in which a suit has just been declared, the game-over modal
    from a state that has just been dealt. *)
Definition exiting_ok (s : GameState) (exiting : Exiting) : Prop :=
  match exiting with
  | NothingExiting => True
  | SuitModalExiting =>
      ∃ s0 suit0, status s0 = choosing_suit ∧ s = selectSuit suit0 s0
  | GameOverModalExiting => ∃ t t', initGame t = Some (s, t')
  end.

(** What holds of a state once a game has been dealt: the cards are those
    of the deck and one of them is on the discard pile; while the game is
    on there is no winner and both hands have cards; after it there is a
    winner; a winner has an empty hand and the other side has cards; a suit
    is asked for only from the player, with none declared, on an eight; and
    a suit is declared only on an eight. *)
Definition game_invariant (s : GameState) : Prop :=
  allCards s ≡ₚ orderedDeck
  ∧ discardPile s ≠ []
  ∧ (status s = playing ∨ status s = choosing_suit →
     winner s = None ∧ playerHand s ≠ [] ∧ aiHand s ≠ [])
  ∧ (status s = game_over → is_Some (winner s))
  ∧ (∀ w, winner s = Some w → hand w s = [] ∧ hand (other w) s ≠ [])
  ∧ (status s = choosing_suit →
     currentTurn s = player ∧ currentSuit s = None ∧ top_is_eight s)
  ∧ (is_Some (currentSuit s) → top_is_eight s).

(** * Properties *)

(** ** The definitions on sample inputs *)

Example newCard_id : id (newCard SPADES TEN) = "10-spades".
Proof. reflexivity. Qed.

(** [i = 4] swaps with [7 mod 5 = 2], [i = 3] with itself, [i = 2] with
    [9 mod 3 = 0] and [i = 1] with 0. *)
Example shuffle_five :
  shuffle [1; 2; 3; 4; 5] [7; 3; 9; 0] = ([2; 5; 1; 4; 3], []).
Proof. reflexivity. Qed.

Example dealt_hands :
  id <$> playerHand (dealt [])
  = ["2-hearts"; "3-hearts"; "4-hearts"; "5-hearts"; "6-hearts"; "7-hearts";
     "8-hearts"; "9-hearts"]
  ∧ id <$> discardPile (dealt []) = ["A-hearts"]
  ∧ length (deck (dealt [])) = 35.
Proof. split_and!; reflexivity. Qed.

Example isValidMove_on_declared_suit :
  isValidMove (newCard CLUBS TWO) (newCard HEARTS KING) None = false
  ∧ isValidMove (newCard CLUBS TWO) (newCard HEARTS KING) (Some CLUBS) = true
  ∧ isValidMove (newCard HEARTS TWO) (newCard HEARTS KING) (Some CLUBS) = false
  ∧ isValidMove (newCard SPADES KING) (newCard HEARTS KING) (Some CLUBS) = true.
Proof. split_and!; reflexivity. Qed.

(** One club and one heart: the later of the two suits is declared. *)
Example chooseSuit_one_each :
  chooseSuit [newCard CLUBS TWO; newCard HEARTS TWO] = Some CLUBS
  ∧ chooseSuit [newCard HEARTS TWO; newCard CLUBS TWO;
                newCard HEARTS THREE] = Some HEARTS.
Proof. split; reflexivity. Qed.

Example playCard_message :
  lastAction (playCard (newCard CLUBS EIGHT) ai (endgame ai))
  = "AI 打出了 8clubs。AI 指定花色为 spades。".
Proof. reflexivity. Qed.

(** ** Arrays and the shuffle *)

Section ArrayFacts.
Context {A : Type}.
Implicit Types a : list A.

Lemma slice_init_snoc a x : slice_init (a ++ [x]) = a.
Proof.
  unfold slice_init. rewrite length_app. simpl.
  replace (length a + 1 - 1) with (length a) by lia.
  apply take_app_length.
Qed.

Lemma last_slice_init a x : last a = Some x → a = slice_init a ++ [x].
Proof.
  intros [a' ->]%last_Some. by rewrite slice_init_snoc.
Qed.

Lemma last_is_Some a : a ≠ [] → is_Some (last a).
Proof.
  destruct a as [|y a] using rev_ind; [done|].
  intros _. rewrite last_snoc. eauto.
Qed.

Lemma last_index a : a !! (length a - 1) = last a.
Proof. rewrite last_lookup. by rewrite Nat.sub_1_r. Qed.

(** On a non-empty array [pop] returns an element, the last one. *)
Lemma pop_nonempty a :
  0 < length a →
  ∃ x, (pop a).1 = Some x ∧ a = (pop a).2 ++ [x].
Proof.
  intros Hlen. destruct (last_is_Some a) as [x Hx].
  { intros ->. simpl in Hlen. lia. }
  exists x. unfold pop. simpl. split; [done|].
  by apply last_slice_init.
Qed.

Lemma length_slice_init a : length (slice_init a) = length a - 1.
Proof. unfold slice_init. rewrite length_take. lia. Qed.

Lemma swap_Permutation a i j : swap a i j ≡ₚ a.
Proof.
  unfold swap.
  destruct (a !! j) as [x|] eqn:Hj; [|done].
  destruct (a !! i) as [y|] eqn:Hi; [|done].
  by apply Permutation_insert_swap.
Qed.

Lemma shuffle_loop_Permutation i a t : (shuffle_loop i a t).1 ≡ₚ a.
Proof.
  revert a t. induction i as [|i IH]; intros a t; [done|].
  cbn [shuffle_loop].
  destruct (random_below (S i + 1) t) as [j t'].
  rewrite IH. apply swap_Permutation.
Qed.

Lemma shuffle_Permutation a t : (shuffle a t).1 ≡ₚ a.
Proof. apply shuffle_loop_Permutation. Qed.

Lemma shuffle_length a t : length (shuffle a t).1 = length a.
Proof. apply Permutation_length, shuffle_Permutation. Qed.
End ArrayFacts.

(** ** The deck *)

Lemma orderedDeck_length : length orderedDeck = 52.
Proof. reflexivity. Qed.

Lemma orderedDeck_ids_distinct : NoDup (id <$> orderedDeck).
Proof. compute_done. Qed.

Lemma orderedDeck_complete suit rank : newCard suit rank ∈ orderedDeck.
Proof.
  destruct suit, rank; compute_done.
Qed.

Lemma orderedDeck_sound c :
  c ∈ orderedDeck → c = newCard (suit c) (rank c).
Proof.
  intros Hc.
  assert (Forall (λ c, c = newCard (suit c) (rank c)) orderedDeck) as Hall.
  { compute_done. }
  rewrite Forall_forall in Hall. by apply Hall.
Qed.

(** ** The partition of the cards *)

Lemma totalCards_allCards s : totalCards s = length (allCards s).
Proof. unfold totalCards, allCards. rewrite !length_app. lia. Qed.

Lemma distinct_ids_partitioned s : distinct_ids s → partitioned s.
Proof.
  unfold distinct_ids, allCards. rewrite !fmap_app.
  intros (_ & Hd & (_ & Hp & (_ & Hh & _)%NoDup_app)%NoDup_app)%NoDup_app.
  intros loc1 loc2 c1 c2 H1 H2 Hid.
  apply (list_elem_of_fmap_2 id) in H1, H2. rewrite <- Hid in H2.
  destruct loc1, loc2; simpl in *; try done; exfalso;
    first [ eapply Hd; [eassumption|]
          | eapply Hp; [eassumption|]
          | eapply Hh; [eassumption|] ];
    rewrite ?elem_of_app; eauto.
Qed.

(** The three facts follow from the cards being those of the deck. *)
Lemma deck_Permutation_invariant s :
  allCards s ≡ₚ orderedDeck →
  totalCards s = 52 ∧ distinct_ids s ∧ partitioned s.
Proof.
  intros Hperm.
  assert (distinct_ids s) as Hd.
  { unfold distinct_ids. rewrite Hperm. apply orderedDeck_ids_distinct. }
  split_and!; [|done|by apply distinct_ids_partitioned].
  rewrite totalCards_allCards, Hperm. apply orderedDeck_length.
Qed.

(** ** What each transition does *)

(** [initGame] always succeeds: with [d] the shuffled deck, the player gets
    its first eight cards, the computer the next eight, the last card is
    turned up and the rest is the draw pile. *)
Lemma initGame_deals t :
  ∃ d rest top,
    d = (createDeck t).1 ∧ d ≡ₚ orderedDeck ∧ drop 16 d = rest ++ [top] ∧
    initGame t =
      Some ({| deck := rest;
               discardPile := [top];
               playerHand := take 8 d;
               aiHand := take 8 (drop 8 d);
               currentSuit := None;
               currentTurn := player;
               status := playing;
               winner := None;
               lastAction := "游戏开始！你的回合。" |}, (createDeck t).2).
Proof.
  unfold initGame, splice0.
  destruct (createDeck t) as [d t'] eqn:Hd.
  assert (d ≡ₚ orderedDeck) as Hperm.
  { replace d with (createDeck t).1 by (by rewrite Hd).
    apply shuffle_Permutation. }
  assert (length d = 52) as Hlen.
  { rewrite Hperm. apply orderedDeck_length. }
  destruct (pop_nonempty (drop 8 (drop 8 d))) as (top & Hpop & Hsnoc).
  { rewrite !length_drop. lia. }
  unfold pop in *. simpl in Hpop, Hsnoc. rewrite Hpop.
  rewrite drop_drop in Hsnoc at 1. simpl in Hsnoc.
  by exists d, (slice_init (drop 8 (drop 8 d))), top.
Qed.

Lemma initGame_allCards t s t' :
  initGame t = Some (s, t') → allCards s ≡ₚ orderedDeck.
Proof.
  destruct (initGame_deals t) as (d & rest & top & _ & Hperm & Hrest & ->).
  intros [= <- _]. unfold allCards. simpl.
  rewrite <- Hperm.
  assert (d = take 8 d ++ take 8 (drop 8 d) ++ rest ++ [top]) as Hsplit.
  { rewrite <- Hrest. change 16 with (8 + 8).
    rewrite <- drop_drop. by rewrite !take_drop. }
  remember (take 8 d) as pHand. remember (take 8 (drop 8 d)) as aHand.
  rewrite Hsplit.
  rewrite (assoc_L (++) pHand), (comm (++) (pHand ++ aHand)).
  by rewrite <- (assoc_L (++)).
Qed.

(** A draw from a draw pile that has cards. *)
Lemma drawCard_from_deck turn s t :
  0 < length (deck s) →
  ∃ newDeck card,
    deck s = newDeck ++ [card] ∧
    drawCard turn s t =
      Some ({| deck := newDeck;
               discardPile := discardPile s;
               playerHand :=
                 match turn with
                 | player => playerHand s ++ [card]
                 | ai => playerHand s
                 end;
               aiHand :=
                 match turn with
                 | player => aiHand s
                 | ai => aiHand s ++ [card]
                 end;
               currentSuit := currentSuit s;
               currentTurn := other turn;
               status := status s;
               winner := winner s;
               lastAction := who turn +:+ " 摸了一张牌。" |}, t).
Proof.
  intros Hlen. unfold drawCard.
  rewrite bool_decide_eq_false_2 by lia.
  destruct (pop_nonempty (deck s) Hlen) as (card & Hpop & Hsnoc).
  unfold pop in *. simpl in Hpop, Hsnoc. rewrite Hpop.
  exists (slice_init (deck s)), card. split; [done|].
  by destruct turn.
Qed.

(** A draw when neither pile can give a card. *)
Lemma drawCard_exhausted turn s t :
  length (deck s) = 0 → length (discardPile s) ≤ 1 →
  drawCard turn s t =
    Some ({| deck := deck s;
             discardPile := discardPile s;
             playerHand := playerHand s;
             aiHand := aiHand s;
             currentSuit := currentSuit s;
             currentTurn := other turn;
             status := status s;
             winner := winner s;
             lastAction := "摸牌堆已空，无法摸牌！" |}, t).
Proof.
  intros Hdeck Hdisc. unfold drawCard.
  by rewrite !bool_decide_eq_true_2.
Qed.

(** A draw that first recycles the discard pile. *)
Lemma drawCard_recycle turn s t :
  length (deck s) = 0 → 1 < length (discardPile s) →
  ∃ below top newDeck card,
    discardPile s = below ++ [top] ∧
    (shuffle below t).1 = newDeck ++ [card] ∧
    drawCard turn s t =
      Some ({| deck := newDeck;
               discardPile := [top];
               playerHand :=
                 match turn with
                 | player => playerHand s ++ [card]
                 | ai => playerHand s
                 end;
               aiHand :=
                 match turn with
                 | player => aiHand s
                 | ai => aiHand s ++ [card]
                 end;
               currentSuit := currentSuit s;
               currentTurn := other turn;
               status := status s;
               winner := winner s;
               lastAction := who turn +:+ " 摸了一张牌。" |},
            (shuffle below t).2).
Proof.
  intros Hdeck Hdisc. unfold drawCard.
  rewrite bool_decide_eq_true_2 by done.
  rewrite bool_decide_eq_false_2 by lia.
  rewrite last_index.
  destruct (pop_nonempty (discardPile s)) as (top & Htop & Hsnoc); [lia|].
  unfold pop in *. simpl in Htop, Hsnoc. rewrite Htop. simpl.
  set (below := slice_init (discardPile s)) in *.
  destruct (shuffle below t) as [shuffled t'] eqn:Hsh.
  destruct (pop_nonempty shuffled) as (card & Hcard & Hsnoc').
  { replace shuffled with (shuffle below t).1 by (by rewrite Hsh).
    rewrite shuffle_length. unfold below. rewrite length_slice_init. lia. }
  simpl in Hcard, Hsnoc'. rewrite Hcard.
  exists below, top, (slice_init shuffled), card.
  rewrite Hsh. split_and!; [done|done|]. by destruct turn.
Qed.

Lemma drawCard_total turn s t : is_Some (drawCard turn s t).
Proof.
  destruct (decide (length (deck s) = 0)) as [Hdeck|Hdeck].
  - destruct (decide (length (discardPile s) ≤ 1)) as [Hdisc|Hdisc].
    + rewrite drawCard_exhausted by done. eauto.
    + destruct (drawCard_recycle turn s t) as (? & ? & ? & ? & _ & _ & ->);
        [done|lia|eauto].
  - destruct (drawCard_from_deck turn s t) as (? & ? & _ & ->); [lia|eauto].
Qed.

(** A draw moves cards, it neither makes nor loses one. *)
Lemma drawCard_allCards turn s t s' t' :
  drawCard turn s t = Some (s', t') → allCards s' ≡ₚ allCards s.
Proof.
  destruct (decide (length (deck s) = 0)) as [Hdeck|Hdeck].
  - destruct (decide (length (discardPile s) ≤ 1)) as [Hdisc|Hdisc].
    + rewrite drawCard_exhausted by done. by intros [= <- _].
    + destruct (drawCard_recycle turn s t)
        as (below & top & newDeck & card & Hpile & Hsh & ->); [done|lia|].
      intros [= <- _]. unfold allCards. simpl.
      apply nil_length_inv in Hdeck. rewrite Hdeck, Hpile.
      rewrite <- (shuffle_Permutation below t), Hsh.
      destruct turn; solve_Permutation.
  - destruct (drawCard_from_deck turn s t)
      as (newDeck & card & Hpile & ->); [lia|].
    intros [= <- _]. unfold allCards. simpl. rewrite Hpile.
    destruct turn; solve_Permutation.
Qed.

(** In a hand without two cards of one id, the filter of [playCard] removes
    the played card and nothing else. *)
Lemma filter_played (h : list CardData) card :
  NoDup (id <$> h) → card ∈ h →
  h ≡ₚ card :: filter (λ c, id c ≠ id card) h.
Proof.
  induction h as [|c h IH]; intros Hnd Hin; [by apply elem_of_nil in Hin|].
  rewrite fmap_cons in Hnd. apply NoDup_cons in Hnd as [Hc Hnd].
  apply elem_of_cons in Hin as [->|Hin].
  - rewrite filter_cons_False by (intros Hne; by apply Hne).
    f_equiv. symmetry.
    assert (Forall (λ c', id c' ≠ id c) h) as Hall.
    { apply Forall_forall. intros c' Hc' Heq. apply Hc. rewrite <- Heq.
      by apply list_elem_of_fmap_2. }
    clear -Hall. induction Hall as [|c' h Hc' _ IHh]; [done|].
    rewrite filter_cons_True by done. by f_equiv.
  - rewrite filter_cons_True.
    + rewrite (IH Hnd Hin) at 1. apply Permutation_swap.
    + intros Heq. apply Hc. rewrite Heq. by apply list_elem_of_fmap_2.
Qed.

Lemma distinct_ids_hand turn s :
  distinct_ids s → NoDup (id <$> hand turn s).
Proof.
  unfold distinct_ids, allCards. rewrite !fmap_app.
  intros (_ & _ & (_ & _ & (Hp & _ & Ha)%NoDup_app)%NoDup_app)%NoDup_app.
  by destruct turn.
Qed.

(** A play of a card of the mover's hand moves that card to the discard
    pile. *)
Lemma playCard_allCards card turn s :
  distinct_ids s → card ∈ hand turn s →
  allCards (playCard card turn s) ≡ₚ allCards s.
Proof.
  intros Hd Hin.
  pose proof (filter_played _ _ (distinct_ids_hand turn s Hd) Hin) as Hf.
  unfold allCards. destruct turn; simpl in *; rewrite Hf at 2;
    solve_Permutation.
Qed.

Lemma reachable_deck s : reachable s → allCards s ≡ₚ orderedDeck.
Proof.
  induction 1 as [t s t' Hinit|s turn t s' t' _ IH Hdraw
                 |s card turn _ IH Hin|s suit _ IH|s _ IH].
  - by eapply initGame_allCards.
  - by rewrite (drawCard_allCards _ _ _ _ _ Hdraw).
  - rewrite playCard_allCards; [done| |done].
    by apply deck_Permutation_invariant.
  - done.
  - done.
Qed.

(** ** The claims *)

(** The invariant only depends on which cards the four locations hold. *)
Lemma partition_invariant_Permutation s s' :
  allCards s' ≡ₚ allCards s → partition_invariant s → partition_invariant s'.
Proof.
  intros Hperm (Htotal & Hids & _).
  assert (distinct_ids s') as Hids'.
  { unfold distinct_ids. by rewrite Hperm. }
  split_and!; [|done|by apply distinct_ids_partitioned].
  rewrite totalCards_allCards in *. by rewrite Hperm.
Qed.

(** C1.  In every state reachable after [initGame] the draw pile, the
    discard pile and the two hands hold 52 cards in all and no card identity
    is in two of them.  Every operation preserves this: from a state with
    these two properties a draw by either side (which always succeeds), a
    play of a card that is in the mover's hand, and a suit declaration each
    lead to a state that has them again. *)
Theorem partition_preserved :
  (∀ s, reachable s → partition_invariant s)
  ∧ (∀ s,
       partition_invariant s →
       (∀ turn t, ∃ s' t',
          drawCard turn s t = Some (s', t') ∧ partition_invariant s')
       ∧ (∀ card turn,
            card ∈ hand turn s → partition_invariant (playCard card turn s))
       ∧ (∀ suit, partition_invariant (selectSuit suit s))).
Proof.
  split.
  - intros s Hs. by apply deck_Permutation_invariant, reachable_deck.
  - intros s Hinv. split_and!.
    + intros turn t. destruct (drawCard_total turn s t) as [[s' t'] Hdraw].
      exists s', t'. split; [done|].
      apply (partition_invariant_Permutation s); [|done].
      by eapply drawCard_allCards.
    + intros card turn Hin.
      apply (partition_invariant_Permutation s); [|done].
      apply playCard_allCards; [|done]. apply Hinv.
    + intros suit. by apply (partition_invariant_Permutation s).
Qed.

Lemma partition_preserved_witness :
  reachable (dealt [])
  ∧ partition_invariant (dealt [])
  ∧ (∀ turn t, ∃ s' t',
       drawCard turn (dealt []) t = Some (s', t') ∧ partition_invariant s')
  ∧ (∀ card turn,
       card ∈ hand turn (dealt []) →
       partition_invariant (playCard card turn (dealt [])))
  ∧ (∀ suit, partition_invariant (selectSuit suit (dealt []))).
Proof.
  assert (reachable (dealt [])) as Hs.
  { apply (reach_init [] (dealt []) []). vm_compute. reflexivity. }
  pose proof (proj1 partition_preserved (dealt []) Hs) as Hinv.
  split; [exact Hs|]. split; [exact Hinv|].
  exact (proj2 partition_preserved (dealt []) Hinv).
Defined.

(** C2.  A card of rank eight is a valid move on every top card and every
    declared suit; a card of another rank is a valid move exactly when its
    suit is the declared suit, or the top card's suit when none is declared,
    or its rank is the top card's rank. *)
Theorem isValidMove_spec card topCard currentSuit :
  (rank card = EIGHT → isValidMove card topCard currentSuit = true)
  ∧ (rank card ≠ EIGHT →
     (isValidMove card topCard currentSuit = true
      ↔ suit card = match currentSuit with
                    | Some declared => declared
                    | None => suit topCard
                    end
        ∨ rank card = rank topCard)).
Proof.
  unfold isValidMove. split.
  - intros Height. by rewrite bool_decide_eq_true_2.
  - intros Hne. rewrite bool_decide_eq_false_2 by done.
    rewrite orb_true_iff, !bool_decide_eq_true.
    by destruct currentSuit.
Qed.

Lemma isValidMove_spec_witness :
  isValidMove (newCard SPADES EIGHT) (newCard HEARTS FIVE) (Some CLUBS) = true
  ∧ (isValidMove (newCard CLUBS KING) (newCard HEARTS FIVE) (Some CLUBS) = true
     ↔ CLUBS = CLUBS ∨ KING = FIVE).
Proof.
  split.
  - apply (proj1 (isValidMove_spec (newCard SPADES EIGHT)
                    (newCard HEARTS FIVE) (Some CLUBS))).
    reflexivity.
  - apply (proj2 (isValidMove_spec (newCard CLUBS KING)
                    (newCard HEARTS FIVE) (Some CLUBS))).
    simpl. discriminate.
Defined.

(** C8.  Whatever [Math.random] returns, [initGame] produces a state in
    which each hand has 8 cards, the discard pile 1 and the draw pile the 35
    others of the 52-card deck: the four locations together hold the deck,
    one card for each pair of a suit and a rank, all identities distinct.
    The turn is the player's, the status is [playing], no suit is declared
    and there is no winner. *)
Theorem initGame_spec t :
  ∃ s t',
    initGame t = Some (s, t')
    ∧ length (playerHand s) = 8 ∧ length (aiHand s) = 8
    ∧ length (discardPile s) = 1 ∧ length (deck s) = 35
    ∧ allCards s ≡ₚ orderedDeck ∧ length orderedDeck = 52
    ∧ (∀ su ra,
         length (filter (λ c, suit c = su ∧ rank c = ra) (allCards s)) = 1)
    ∧ distinct_ids s
    ∧ currentTurn s = player ∧ status s = playing
    ∧ currentSuit s = None ∧ winner s = None.
Proof.
  destruct (initGame_deals t) as (d & rest & top & Hd & Hperm & Hrest & Hinit).
  eexists _, _. split; [exact Hinit|].
  assert (length d = 52) as Hlen by (by rewrite Hperm).
  assert (allCards
            {| deck := rest; discardPile := [top]; playerHand := take 8 d;
               aiHand := take 8 (drop 8 d); currentSuit := None;
               currentTurn := player; status := playing; winner := None;
               lastAction := "游戏开始！你的回合。" |} ≡ₚ orderedDeck) as Hall.
  { by eapply initGame_allCards. }
  simpl. split_and!; try done.
  - rewrite length_take. lia.
  - rewrite length_take, length_drop. lia.
  - apply (f_equal length) in Hrest.
    rewrite length_drop, length_app in Hrest. simpl in Hrest. lia.
  - intros su ra. rewrite Hall. destruct su, ra; compute_done.
  - by apply deck_Permutation_invariant.
Qed.

(** C5.  When the draw pile is empty and the discard pile has more than one
    card, [drawCard] succeeds: the cards below the top card are shuffled
    into the new draw pile, whose last card goes to the hand of the side
    that draws; the discard pile is left with the same top card alone; the
    other hand, the declared suit, the status and the winner are kept; the
    turn goes to the other side; the number of cards is the same; and, the
    identities being distinct, the top card is neither in the new draw pile
    nor the card drawn. *)
Theorem drawCard_recycles turn s t :
  deck s = [] → 1 < length (discardPile s) →
  ∃ below top card s' t',
    drawCard turn s t = Some (s', t')
    ∧ discardPile s = below ++ [top]
    ∧ shuffle below t = (deck s' ++ [card], t')
    ∧ deck s' ++ [card] ≡ₚ below
    ∧ discardPile s' = [top]
    ∧ hand turn s' = hand turn s ++ [card]
    ∧ hand (other turn) s' = hand (other turn) s
    ∧ currentTurn s' = other turn
    ∧ currentSuit s' = currentSuit s ∧ status s' = status s
    ∧ winner s' = winner s
    ∧ totalCards s' = totalCards s
    ∧ (distinct_ids s → top ∉ deck s' ++ [card]).
Proof.
  intros Hdeck Hpile.
  destruct (drawCard_recycle turn s t)
    as (below & top & newDeck & card & Hsplit & Hsh & Hdraw);
    [by rewrite Hdeck|done|].
  eexists below, top, card, _, _. split; [exact Hdraw|].
  assert (newDeck ++ [card] ≡ₚ below) as Hperm.
  { rewrite <- Hsh. apply shuffle_Permutation. }
  simpl. split_and!; try done.
  - rewrite <- Hsh. by destruct (shuffle below t).
  - by destruct turn.
  - by destruct turn.
  - rewrite !totalCards_allCards.
    apply Permutation_length, (drawCard_allCards turn s t _ _ Hdraw).
  - unfold distinct_ids, allCards. rewrite Hdeck, Hsplit, Hperm. simpl.
    rewrite !fmap_app. intros (Hnd & _)%NoDup_app.
    apply NoDup_app in Hnd as (_ & Hnd & _).
    intros Hin. apply (Hnd (id top)).
    + by apply list_elem_of_fmap_2.
    + simpl. by apply list_elem_of_singleton.
Qed.

Lemma drawCard_recycles_witness :
  ∃ below top card s' t',
    drawCard ai (drawn_out 20) [3; 1; 4; 1; 5] = Some (s', t')
    ∧ discardPile (drawn_out 20) = below ++ [top]
    ∧ shuffle below [3; 1; 4; 1; 5] = (deck s' ++ [card], t')
    ∧ deck s' ++ [card] ≡ₚ below
    ∧ discardPile s' = [top]
    ∧ hand ai s' = hand ai (drawn_out 20) ++ [card]
    ∧ hand (other ai) s' = hand (other ai) (drawn_out 20)
    ∧ currentTurn s' = other ai
    ∧ currentSuit s' = currentSuit (drawn_out 20)
    ∧ status s' = status (drawn_out 20)
    ∧ winner s' = winner (drawn_out 20)
    ∧ totalCards s' = totalCards (drawn_out 20)
    ∧ (distinct_ids (drawn_out 20) → top ∉ deck s' ++ [card]).
Proof.
  apply (drawCard_recycles ai (drawn_out 20) [3; 1; 4; 1; 5]).
  - reflexivity.
  - vm_compute. lia.
Defined.

(** C6.  When the draw pile is empty and the discard pile has at most one
    card, [drawCard] succeeds without using [Math.random] and moves no card:
    both piles, both hands, the declared suit, the status and the winner are
    those of the state before, the turn is the other side's, and the last
    action reports that no card could be drawn. *)
Theorem drawCard_nothing_left turn s t :
  deck s = [] → length (discardPile s) ≤ 1 →
  ∃ s',
    drawCard turn s t = Some (s', t)
    ∧ deck s' = deck s ∧ discardPile s' = discardPile s
    ∧ playerHand s' = playerHand s ∧ aiHand s' = aiHand s
    ∧ currentSuit s' = currentSuit s ∧ status s' = status s
    ∧ winner s' = winner s
    ∧ currentTurn s' = other turn
    ∧ lastAction s' = "摸牌堆已空，无法摸牌！".
Proof.
  intros Hdeck Hpile.
  eexists. split.
  - apply drawCard_exhausted; [by rewrite Hdeck|done].
  - done.
Qed.

Lemma drawCard_nothing_left_witness :
  ∃ s',
    drawCard player (drawn_out 1) [2; 7] = Some (s', [2; 7])
    ∧ deck s' = deck (drawn_out 1)
    ∧ discardPile s' = discardPile (drawn_out 1)
    ∧ playerHand s' = playerHand (drawn_out 1)
    ∧ aiHand s' = aiHand (drawn_out 1)
    ∧ currentSuit s' = currentSuit (drawn_out 1)
    ∧ status s' = status (drawn_out 1)
    ∧ winner s' = winner (drawn_out 1)
    ∧ currentTurn s' = other player
    ∧ lastAction s' = "摸牌堆已空，无法摸牌！".
Proof.
  apply (drawCard_nothing_left player (drawn_out 1) [2; 7]).
  - reflexivity.
  - vm_compute. lia.
Defined.

(** ** The computer's choice of a suit *)

Lemma suit_count_cons k c h :
  suit_count k (c :: h) = (if decide (suit c = k) then 1 else 0) + suit_count k h.
Proof.
  unfold suit_count. rewrite filter_cons. by destruct (decide (suit c = k)).
Qed.

(** The object [counts] after the [forEach] over the hand. *)
Lemma counts_forEach h nh nd nc ns :
  foldl (λ counts c, counts_incr counts (suit c))
        [(HEARTS, nh); (DIAMONDS, nd); (CLUBS, nc); (SPADES, ns)] h
  = [(HEARTS, nh + suit_count HEARTS h);
     (DIAMONDS, nd + suit_count DIAMONDS h);
     (CLUBS, nc + suit_count CLUBS h);
     (SPADES, ns + suit_count SPADES h)].
Proof.
  revert nh nd nc ns. induction h as [|c h IH]; intros nh nd nc ns.
  - simpl. by rewrite !Nat.add_0_r.
  - rewrite !suit_count_cons. cbn [foldl].
    destruct (suit c); unfold counts_incr at 1; simpl;
      by rewrite IH, ?Nat.add_succ_r.
Qed.

(** The suit chosen for a hand: it has the highest count, and of the suits
    with that count it is the last in the enumeration. *)
Lemma chooseSuit_choice h :
  ∃ k,
    chooseSuit h = Some k
    ∧ (∀ k', suit_count k' h ≤ suit_count k h)
    ∧ (∀ k', suit_count k' h = suit_count k h → suit_index k' ≤ suit_index k).
Proof.
  unfold chooseSuit, counts0. rewrite counts_forEach. simpl.
  unfold counts_gt. simpl.
  repeat (case_bool_decide; simpl);
    eexists; (split; [reflexivity|]); split; intros []; simpl; lia.
Qed.

Lemma suit_index_inj k1 k2 : suit_index k1 = suit_index k2 → k1 = k2.
Proof. by destruct k1, k2. Qed.

(** The choice depends on the four counts alone. *)
Lemma chooseSuit_counts h1 h2 :
  (∀ k, suit_count k h1 = suit_count k h2) → chooseSuit h1 = chooseSuit h2.
Proof.
  intros Heq.
  destruct (chooseSuit_choice h1) as (k1 & -> & Hmax1 & Htie1).
  destruct (chooseSuit_choice h2) as (k2 & -> & Hmax2 & Htie2).
  f_equal. apply suit_index_inj.
  pose proof (Hmax1 k2) as H12. pose proof (Hmax2 k1) as H21.
  rewrite <- !Heq in H21.
  assert (suit_count k2 h1 = suit_count k1 h1) as Hsame by lia.
  pose proof (Htie1 k2 Hsame). pose proof (Htie2 k1) as Hk1.
  rewrite <- !Heq in Hk1. specialize (Hk1 (eq_sym Hsame)). lia.
Qed.

(** C9.  The suit the computer declares is a function of the hand it is left
    with: a suit is always chosen, none has more cards in that hand, two
    hands with the same number of cards of each suit (two orderings of one
    hand among them) get the same suit, equal counts being resolved by one
    fixed priority among the suits; and that suit is the declared suit of
    the state after the computer has played an eight. *)
Theorem chooseSuit_deterministic :
  (∀ h, ∃ k, chooseSuit h = Some k ∧ ∀ k', suit_count k' h ≤ suit_count k h)
  ∧ (∀ h1 h2,
       (∀ k, suit_count k h1 = suit_count k h2) →
       chooseSuit h1 = chooseSuit h2)
  ∧ (∀ h1 h2, h1 ≡ₚ h2 → chooseSuit h1 = chooseSuit h2)
  ∧ (∃ priority : Suit → nat,
       (∀ k1 k2, priority k1 = priority k2 → k1 = k2)
       ∧ ∀ h k k',
           chooseSuit h = Some k →
           suit_count k' h = suit_count k h → priority k' ≤ priority k)
  ∧ (∀ card s,
       rank card = EIGHT →
       currentSuit (playCard card ai s)
       = chooseSuit (aiHand (playCard card ai s))).
Proof.
  split_and!.
  - intros h. destruct (chooseSuit_choice h) as (k & Hk & Hmax & _). eauto.
  - apply chooseSuit_counts.
  - intros h1 h2 Hperm. apply chooseSuit_counts. intros k.
    unfold suit_count. by rewrite Hperm.
  - exists suit_index. split; [apply suit_index_inj|].
    intros h k k' Hk Hsame.
    destruct (chooseSuit_choice h) as (k0 & Hk0 & _ & Htie).
    rewrite Hk in Hk0. injection Hk0 as <-. by apply Htie.
  - intros card s Height. unfold playCard. simpl.
    by rewrite bool_decide_eq_true_2.
Qed.

Lemma chooseSuit_deterministic_witness :
  chooseSuit [newCard CLUBS TWO; newCard HEARTS TWO; newCard HEARTS THREE]
  = chooseSuit [newCard HEARTS THREE; newCard CLUBS TWO; newCard HEARTS TWO]
  ∧ currentSuit (playCard (newCard CLUBS EIGHT) ai midgame)
    = chooseSuit (aiHand (playCard (newCard CLUBS EIGHT) ai midgame)).
Proof.
  destruct chooseSuit_deterministic as (_ & Hcounts & _ & _ & Hplay).
  split.
  - apply Hcounts. intros []; reflexivity.
  - apply Hplay. reflexivity.
Defined.

(** C10.  The suit the computer declares has the highest count, and of the
    suits that share the highest count it is the one that comes last in the
    enumeration hearts, diamonds, clubs, spades: every suit after the chosen
    one has strictly fewer cards, and the suit with these two properties is
    the one chosen.  When the four counts are equal, as they are for the
    empty hand, it declares spades. *)
Theorem chooseSuit_tie_break :
  (∀ k, counts0.*1 !! suit_index k = Some k)
  ∧ (∀ h, ∃ k,
       chooseSuit h = Some k
       ∧ (∀ k', suit_count k' h ≤ suit_count k h)
       ∧ (∀ k', suit_count k' h = suit_count k h →
                suit_index k' ≤ suit_index k)
       ∧ (∀ k', suit_index k < suit_index k' →
                suit_count k' h < suit_count k h))
  ∧ (∀ h, (∀ k1 k2, suit_count k1 h = suit_count k2 h) →
          chooseSuit h = Some SPADES)
  ∧ chooseSuit [] = Some SPADES
  ∧ (∀ h k,
       (∀ k', suit_count k' h ≤ suit_count k h) →
       (∀ k', suit_count k' h = suit_count k h →
              suit_index k' ≤ suit_index k) →
       chooseSuit h = Some k).
Proof.
  split_and!.
  - by intros [].
  - intros h. destruct (chooseSuit_choice h) as (k & Hk & Hmax & Htie).
    exists k. split_and!; [done|done|done|].
    intros k' Hlater. pose proof (Hmax k') as Hle.
    destruct (decide (suit_count k' h = suit_count k h)) as [Heq|Hne]; [|lia].
    apply Htie in Heq. lia.
  - intros h Hall. destruct (chooseSuit_choice h) as (k & -> & _ & Htie).
    f_equal. specialize (Htie SPADES (Hall _ _)).
    destruct k; simpl in Htie; by try lia.
  - reflexivity.
  - intros h k Hmax Htie.
    destruct (chooseSuit_choice h) as (k0 & -> & Hmax0 & Htie0).
    f_equal. apply suit_index_inj.
    pose proof (Hmax k0) as H1. pose proof (Hmax0 k) as H2.
    assert (suit_count k0 h = suit_count k h) as Heq by lia.
    pose proof (Htie k0 Heq). pose proof (Htie0 k (eq_sym Heq)). lia.
Qed.

Lemma chooseSuit_tie_break_witness :
  chooseSuit [newCard HEARTS ACE; newCard DIAMONDS ACE; newCard CLUBS ACE;
              newCard SPADES ACE] = Some SPADES
  ∧ chooseSuit [newCard HEARTS TWO; newCard CLUBS TWO] = Some CLUBS.
Proof.
  destruct chooseSuit_tie_break as (_ & _ & Hequal & _ & Hunique).
  split.
  - apply Hequal. intros [] []; reflexivity.
  - apply Hunique.
    + intros []; vm_compute; lia.
    + intros [] Heq; vm_compute in Heq |- *; first [discriminate|lia].
Defined.

(** ** Plays and suit declarations *)

(** C3, as the specification states it, fails on [playCard]: a play is
    applied when the card is not a valid move, when the side does not hold
    the card or the turn, and when no game is in progress. *)
Lemma playCard_applies_rejected_moves :
  (status midgame = playing ∧ currentTurn midgame = player
   ∧ last (discardPile midgame) = Some (newCard HEARTS KING)
   ∧ newCard CLUBS TWO ∈ playerHand midgame
   ∧ isValidMove (newCard CLUBS TWO) (newCard HEARTS KING)
                 (currentSuit midgame) = false
   ∧ playCard (newCard CLUBS TWO) player midgame ≠ midgame
   ∧ discardPile (playCard (newCard CLUBS TWO) player midgame)
     = [newCard HEARTS KING; newCard CLUBS TWO])
  ∧ ((newCard CLUBS TWO ∉ aiHand midgame)
     ∧ playCard (newCard CLUBS TWO) ai midgame ≠ midgame
     ∧ discardPile (playCard (newCard CLUBS TWO) ai midgame)
       = [newCard HEARTS KING; newCard CLUBS TWO])
  ∧ (status initialState = waiting
     ∧ playCard (newCard CLUBS TWO) player initialState ≠ initialState
     ∧ discardPile (playCard (newCard CLUBS TWO) player initialState)
       = [newCard CLUBS TWO]).
Proof.
  split_and!; try reflexivity; try compute_done; by intros [=].
Qed.

(** C3, amended.  [playCard] has no failure and checks nothing: for every
    card, side and state, whatever the status and the turn and whether or
    not the card is a valid move or in the side's hand, it puts the card on
    the discard pile and removes from the side's hand the cards with the
    card's id; the draw pile and the other hand are kept, and the state it
    returns is never the state it was given. *)
Theorem playCard_unchecked card turn s :
  discardPile (playCard card turn s) = discardPile s ++ [card]
  ∧ hand turn (playCard card turn s)
    = filter (λ c, id c ≠ id card) (hand turn s)
  ∧ hand (other turn) (playCard card turn s) = hand (other turn) s
  ∧ deck (playCard card turn s) = deck s
  ∧ playCard card turn s ≠ s.
Proof.
  split_and!; try by destruct turn.
  intros Heq. apply (f_equal (λ s', length (discardPile s'))) in Heq.
  simpl in Heq. rewrite length_app in Heq. simpl in Heq. lia.
Qed.

(** C4, as the specification states it, fails on [playCard]: the player's
    last card ends the game and the turn still goes to the computer; the
    computer's last card, an eight, ends the game and a suit is still
    declared. *)
Lemma playCard_last_card_updates_turn :
  (status (endgame player) = playing
   ∧ currentTurn (endgame player) = player
   ∧ playerHand (endgame player) = [newCard HEARTS FIVE]
   ∧ last (discardPile (endgame player)) = Some (newCard HEARTS KING)
   ∧ isValidMove (newCard HEARTS FIVE) (newCard HEARTS KING)
                 (currentSuit (endgame player)) = true
   ∧ status (playCard (newCard HEARTS FIVE) player (endgame player))
     = game_over
   ∧ currentTurn (playCard (newCard HEARTS FIVE) player (endgame player))
     = ai)
  ∧ (status (endgame ai) = playing
     ∧ currentTurn (endgame ai) = ai
     ∧ aiHand (endgame ai) = [newCard CLUBS EIGHT]
     ∧ currentSuit (endgame ai) = None
     ∧ status (playCard (newCard CLUBS EIGHT) ai (endgame ai)) = game_over
     ∧ currentTurn (playCard (newCard CLUBS EIGHT) ai (endgame ai)) = player
     ∧ currentSuit (playCard (newCard CLUBS EIGHT) ai (endgame ai))
       = Some SPADES).
Proof. split_and!; reflexivity. Qed.

(** C4, amended.  When the card played is the only card of the side's hand,
    the hand is empty afterwards, the status is [game_over] (also for the
    player's eight, which does not ask for a suit) and the winner is the
    side.  The turn and the declared suit are set as after any other play:
    the turn goes to the other side, or stays with the player after the
    player's eight; the declared suit is none, or spades, the computer's
    choice for an empty hand, after the computer's eight. *)
Theorem playCard_last_card card turn s :
  hand turn s = [card] →
  hand turn (playCard card turn s) = []
  ∧ status (playCard card turn s) = game_over
  ∧ winner (playCard card turn s) = Some turn
  ∧ currentTurn (playCard card turn s)
    = (if bool_decide (rank card = EIGHT ∧ turn = player)
       then player else other turn)
  ∧ currentSuit (playCard card turn s)
    = (if bool_decide (rank card = EIGHT ∧ turn = ai)
       then Some SPADES else None).
Proof.
  intros Hhand. unfold playCard. rewrite Hhand.
  rewrite filter_cons_False, filter_nil by (intros Hne; by apply Hne).
  simpl. split_and!; try done.
  - by destruct turn.
  - destruct turn, (decide (rank card = EIGHT)) as [Height|Hother];
      rewrite ?(bool_decide_eq_true_2 _ Height),
              ?(bool_decide_eq_false_2 _ Hother); simpl;
      by repeat case_bool_decide; intuition.
  - destruct turn, (decide (rank card = EIGHT)) as [Height|Hother];
      rewrite ?(bool_decide_eq_true_2 _ Height),
              ?(bool_decide_eq_false_2 _ Hother); simpl;
      by repeat case_bool_decide; intuition.
Qed.

Lemma playCard_last_card_witness :
  hand player (playCard (newCard HEARTS FIVE) player (endgame player)) = []
  ∧ status (playCard (newCard HEARTS FIVE) player (endgame player))
    = game_over
  ∧ winner (playCard (newCard HEARTS FIVE) player (endgame player))
    = Some player
  ∧ currentTurn (playCard (newCard HEARTS FIVE) player (endgame player))
    = (if bool_decide (rank (newCard HEARTS FIVE) = EIGHT ∧ player = player)
       then player else other player)
  ∧ currentSuit (playCard (newCard HEARTS FIVE) player (endgame player))
    = (if bool_decide (rank (newCard HEARTS FIVE) = EIGHT ∧ player = ai)
       then Some SPADES else None).
Proof.
  apply (playCard_last_card (newCard HEARTS FIVE) player (endgame player)).
  reflexivity.
Defined.

(** C7, as the specification states it, fails on [selectSuit]: a suit is
    declared, and the state changed, when the status is [playing] and when
    it is [waiting]. *)
Lemma selectSuit_applies_in_other_status :
  (status midgame = playing
   ∧ selectSuit HEARTS midgame ≠ midgame
   ∧ currentSuit (selectSuit HEARTS midgame) = Some HEARTS
   ∧ currentTurn (selectSuit HEARTS midgame) = ai)
  ∧ (status initialState = waiting
     ∧ selectSuit HEARTS initialState ≠ initialState
     ∧ status (selectSuit HEARTS initialState) = playing).
Proof. split_and!; try reflexivity; by intros [=]. Qed.

(** C7, amended.  When the player plays an eight and is left with a card,
    the status becomes [choosing_suit] and the turn stays with the player.
    [selectSuit] has no failure and does not look at the status: in every
    state it sets the declared suit, the status [playing] and the turn of
    the computer, and keeps the piles, the hands and the winner. *)
Theorem player_eight_then_selectSuit card s suit :
  rank card = EIGHT →
  playerHand (playCard card player s) ≠ [] →
  (status (playCard card player s) = choosing_suit
   ∧ currentTurn (playCard card player s) = player)
  ∧ (∀ s0,
       currentSuit (selectSuit suit s0) = Some suit
       ∧ status (selectSuit suit s0) = playing
       ∧ currentTurn (selectSuit suit s0) = ai
       ∧ deck (selectSuit suit s0) = deck s0
       ∧ discardPile (selectSuit suit s0) = discardPile s0
       ∧ playerHand (selectSuit suit s0) = playerHand s0
       ∧ aiHand (selectSuit suit s0) = aiHand s0
       ∧ winner (selectSuit suit s0) = winner s0).
Proof.
  intros Height Hleft. split; [|done].
  unfold playCard in *. simpl in *.
  rewrite (bool_decide_eq_true_2 (rank card = EIGHT)) by done. simpl.
  rewrite bool_decide_eq_false_2; [done|].
  intros Hlen. by apply nil_length_inv in Hlen.
Qed.

Lemma player_eight_then_selectSuit_witness :
  (status (playCard (newCard SPADES EIGHT) player midgame) = choosing_suit
   ∧ currentTurn (playCard (newCard SPADES EIGHT) player midgame) = player)
  ∧ (∀ s0,
       currentSuit (selectSuit CLUBS s0) = Some CLUBS
       ∧ status (selectSuit CLUBS s0) = playing
       ∧ currentTurn (selectSuit CLUBS s0) = ai
       ∧ deck (selectSuit CLUBS s0) = deck s0
       ∧ discardPile (selectSuit CLUBS s0) = discardPile s0
       ∧ playerHand (selectSuit CLUBS s0) = playerHand s0
       ∧ aiHand (selectSuit CLUBS s0) = aiHand s0
       ∧ winner (selectSuit CLUBS s0) = winner s0).
Proof.
  apply (player_eight_then_selectSuit (newCard SPADES EIGHT) midgame CLUBS).
  - reflexivity.
  - vm_compute. discriminate.
Defined.

(** * Further properties of the code *)

(** ** gameLogic.ts: the shuffle *)

Section ShuffleFacts.
Context {A : Type}.
Implicit Types a p q s : list A.

Lemma random_below_tape n t : (random_below n t).2 = drop 1 t.
Proof. by destruct t. Qed.

Lemma shuffle_loop_tape i a t : (shuffle_loop i a t).2 = drop i t.
Proof.
  revert a t. induction i as [|i IH]; intros a t; [done|].
  cbn [shuffle_loop].
  pose proof (random_below_tape (S i + 1) t) as Htape.
  destruct (random_below (S i + 1) t) as [j t']. simpl in Htape.
  by rewrite IH, Htape, drop_drop.
Qed.

Lemma length_swap a i j : length (swap a i j) = length a.
Proof. apply Permutation_length, swap_Permutation. Qed.

(** Inside the array, the swap writes [a[j]] at [i]. *)
Lemma swap_lookup_i a i j x :
  i < length a → a !! j = Some x → swap a i j !! i = Some x.
Proof.
  intros Hi Hj. unfold swap. rewrite Hj.
  destruct (lookup_lt_is_Some_2 a i Hi) as [y Hy]. rewrite Hy.
  destruct (decide (j = i)) as [->|Hne].
  - rewrite list_lookup_insert_eq by (by rewrite length_insert). congruence.
  - rewrite list_lookup_insert_ne by done.
    by rewrite list_lookup_insert_eq.
Qed.

Lemma swap_app_l p s i j :
  i < length p → j < length p → swap (p ++ s) i j = swap p i j ++ s.
Proof.
  intros Hi Hj. unfold swap. rewrite !lookup_app_l by done.
  destruct (p !! j) as [x|]; [|done]. destruct (p !! i) as [y|]; [|done].
  rewrite insert_app_l by done.
  by rewrite insert_app_l by (by rewrite length_insert).
Qed.

(** The loop from index [i] can bring the first [i + 1] elements into any
    order, and leaves the others where they are. *)
Lemma shuffle_loop_reaches i p p' s :
  length p = S i → p' ≡ₚ p →
  ∃ t, length t = i ∧ shuffle_loop i (p ++ s) t = (p' ++ s, []).
Proof.
  revert p p' s. induction i as [|i IH]; intros p p' s Hlen Hperm.
  - exists []. split; [done|]. simpl.
    destruct p as [|x [|??]]; try done.
    by apply Permutation_singleton_r in Hperm as ->.
  - assert (length p' = S (S i)) as Hlen' by (by rewrite Hperm).
    destruct (last_is_Some p') as [x Hx].
    { intros ->. simpl in Hlen'. lia. }
    apply last_Some in Hx as [q' ->].
    assert (x ∈ p) as Hin.
    { rewrite <- Hperm. apply elem_of_app. right. by left. }
    apply list_elem_of_lookup in Hin as [j Hj].
    pose proof (lookup_lt_Some _ _ _ Hj) as Hjlt.
    assert (swap p (S i) j !! S i = Some x) as Hlast.
    { apply swap_lookup_i; [lia|done]. }
    assert (last (swap p (S i) j) = Some x) as Hlast'.
    { rewrite last_lookup, length_swap, Hlen. done. }
    apply last_Some in Hlast' as [q Hq].
    assert (q ≡ₚ q') as Hqq.
    { apply (Permutation_app_inv_r [x]).
      by rewrite <- Hq, swap_Permutation, Hperm. }
    assert (length q = S i) as Hlenq.
    { apply (f_equal length) in Hq.
      rewrite length_swap, length_app, Hlen in Hq. simpl in Hq. lia. }
    destruct (IH q q' ([x] ++ s) Hlenq) as (t & Ht & Hloop); [done|].
    exists (j :: t). split; [simpl; by rewrite Ht|].
    cbn [shuffle_loop random_below].
    replace (j `mod` (S i + 1)) with j by (symmetry; apply Nat.mod_small; lia).
    rewrite swap_app_l by lia. rewrite Hq, <- !(assoc_L (++)).
    exact Hloop.
Qed.
End ShuffleFacts.

(** X1.  [shuffle] returns the elements of its argument in some order: the
    result is a permutation of the argument and has its length, whatever
    [Math.random] returns.  It calls [Math.random] once for each index from
    the last down to 1, so an array of at most one element is returned as
    it is, without a call. *)
Theorem shuffle_permutes {A : Type} (array : list A) (t : Rand) :
  (shuffle array t).1 ≡ₚ array
  ∧ length (shuffle array t).1 = length array
  ∧ (shuffle array t).2 = drop (length array - 1) t
  ∧ (length array ≤ 1 → shuffle array t = (array, t)).
Proof.
  split_and!.
  - apply shuffle_Permutation.
  - apply shuffle_length.
  - apply shuffle_loop_tape.
  - intros Hlen. unfold shuffle.
    by replace (length array - 1) with 0 by lia.
Qed.

Lemma shuffle_permutes_witness :
  shuffle [newCard HEARTS ACE] [5; 6] = ([newCard HEARTS ACE], [5; 6]).
Proof.
  apply (shuffle_permutes [newCard HEARTS ACE] [5; 6]). simpl. lia.
Defined.

(** X2.  Every ordering of the array is a result of [shuffle]: for each
    permutation of the argument there are values of [Math.random], one for
    each index from the last down to 1, with which [shuffle] returns it. *)
Theorem shuffle_reaches_every_permutation {A : Type} (array array' : list A) :
  array' ≡ₚ array →
  ∃ t, length t = length array - 1 ∧ shuffle array t = (array', []).
Proof.
  intros Hperm. unfold shuffle.
  destruct array as [|x array].
  - apply Permutation_nil_r in Hperm as ->. by exists [].
  - simpl. rewrite Nat.sub_0_r.
    destruct (shuffle_loop_reaches (length array) (x :: array) array' [])
      as (t & Ht & Hloop); [done|done|].
    rewrite !app_nil_r in Hloop. by exists t.
Qed.

Lemma shuffle_reaches_every_permutation_witness :
  ∃ t, length t = length [1; 2; 3] - 1 ∧ shuffle [1; 2; 3] t = ([3; 1; 2], []).
Proof.
  apply (shuffle_reaches_every_permutation [1; 2; 3] [3; 1; 2]).
  solve_Permutation.
Defined.

(** ** Card identities *)

Lemma newCard_id_inj su ra su' ra' :
  id (newCard su ra) = id (newCard su' ra') → su = su' ∧ ra = ra'.
Proof. destruct su, ra, su', ra'; simpl; intros [=]; done. Qed.

(** X3.  In a reachable state every card carries the id
    [`${rank}-${suit}`] of its rank and suit, and the id tells the cards
    apart: two cards in the piles and hands with one id are the same card. *)
Theorem reachable_id_determines_card s c1 c2 :
  reachable s → c1 ∈ allCards s → c2 ∈ allCards s →
  id c1 = rank_str (rank c1) +:+ "-" +:+ suit_str (suit c1)
  ∧ (id c1 = id c2 → c1 = c2).
Proof.
  intros Hs%reachable_deck H1 H2. rewrite Hs in H1, H2.
  apply orderedDeck_sound in H1, H2. split.
  - by rewrite H1 at 1.
  - rewrite H1, H2. intros [-> ->]%newCard_id_inj. done.
Qed.

Lemma reachable_id_determines_card_witness :
  id (newCard HEARTS TWO)
  = rank_str (rank (newCard HEARTS TWO)) +:+ "-"
    +:+ suit_str (suit (newCard HEARTS TWO))
  ∧ (id (newCard HEARTS TWO) = id (newCard HEARTS TWO) →
     newCard HEARTS TWO = newCard HEARTS TWO).
Proof.
  apply (reachable_id_determines_card (dealt [])).
  - apply (reach_init [] (dealt []) []). vm_compute. reflexivity.
  - compute_done.
  - compute_done.
Defined.

(** ** Draws *)

(** X4.  A draw from a draw pile that has cards takes its last card into
    the hand of the side that draws, at the end, without a call of
    [Math.random]; the discard pile and the other hand are kept and the
    turn goes to the other side. *)
Theorem drawCard_takes_last_card turn s t newDeck card :
  deck s = newDeck ++ [card] →
  ∃ s',
    drawCard turn s t = Some (s', t)
    ∧ deck s' = newDeck
    ∧ hand turn s' = hand turn s ++ [card]
    ∧ hand (other turn) s' = hand (other turn) s
    ∧ discardPile s' = discardPile s
    ∧ currentTurn s' = other turn.
Proof.
  intros Hdeck.
  destruct (drawCard_from_deck turn s t)
    as (newDeck' & card' & Hsplit & ->).
  { rewrite Hdeck, length_app. simpl. lia. }
  rewrite Hdeck in Hsplit. apply app_inj_tail in Hsplit as [<- <-].
  eexists. split; [done|]. simpl. by destruct turn.
Qed.

Lemma drawCard_takes_last_card_witness :
  ∃ s',
    drawCard player midgame [4] = Some (s', [4])
    ∧ deck s' = slice_init (deck midgame)
    ∧ hand player s' = hand player midgame ++ [newCard SPADES KING]
    ∧ hand (other player) s' = hand (other player) midgame
    ∧ discardPile s' = discardPile midgame
    ∧ currentTurn s' = other player.
Proof.
  apply (drawCard_takes_last_card player midgame [4]). reflexivity.
Defined.

(** What a draw changes, whichever branch it takes. *)
Lemma drawCard_effect turn s t s' t' :
  drawCard turn s t = Some (s', t') →
  status s' = status s ∧ winner s' = winner s
  ∧ currentSuit s' = currentSuit s
  ∧ last (discardPile s') = last (discardPile s)
  ∧ hand (other turn) s' = hand (other turn) s
  ∧ (hand turn s' = hand turn s ∨ ∃ card, hand turn s' = hand turn s ++ [card])
  ∧ currentTurn s' = other turn.
Proof.
  intros Hdraw.
  destruct (decide (length (deck s) = 0)) as [Hdeck|Hdeck].
  - destruct (decide (length (discardPile s) ≤ 1)) as [Hdisc|Hdisc].
    + rewrite drawCard_exhausted in Hdraw by done.
      injection Hdraw as <- <-. simpl.
      split_and!; try done; try (by destruct turn).
      left. by destruct turn.
    + destruct (drawCard_recycle turn s t)
        as (below & top & newDeck & card & Hpile & Hsh & Heq); [done|lia|].
      rewrite Heq in Hdraw. injection Hdraw as <- <-. simpl.
      split_and!; try done; try (by destruct turn).
      * by rewrite Hpile, last_snoc.
      * right. exists card. by destruct turn.
  - destruct (drawCard_from_deck turn s t)
      as (newDeck & card & Hpile & Heq); [lia|].
    rewrite Heq in Hdraw. injection Hdraw as <- <-. simpl.
    split_and!; try done; try (by destruct turn).
    right. exists card. by destruct turn.
Qed.

(** X5.  A draw always succeeds, whichever branch it takes, and it only
    moves cards towards the hand of the side that draws: the status, the
    winner, the declared suit, the top card of the discard pile, the other
    hand and the number of cards are those of the state before, the hand
    of the side that draws is the same or has one more card at its end, and
    the turn is the other side's. *)
Theorem drawCard_frame turn s t :
  ∃ s' t',
    drawCard turn s t = Some (s', t')
    ∧ status s' = status s ∧ winner s' = winner s
    ∧ currentSuit s' = currentSuit s
    ∧ last (discardPile s') = last (discardPile s)
    ∧ hand (other turn) s' = hand (other turn) s
    ∧ (hand turn s' = hand turn s ∨ ∃ card, hand turn s' = hand turn s ++ [card])
    ∧ totalCards s' = totalCards s
    ∧ currentTurn s' = other turn.
Proof.
  destruct (drawCard_total turn s t) as [[s' t'] Hdraw].
  exists s', t'. split; [done|].
  assert (totalCards s' = totalCards s) as Htotal.
  { rewrite !totalCards_allCards.
    by apply Permutation_length, (drawCard_allCards turn s t s' t'). }
  destruct (drawCard_effect turn s t s' t' Hdraw)
    as (Hst & Hwin & Hsuit & Hlast & Hother & Hhand & Hturn).
  by split_and!.
Qed.

(** ** Plays *)

(** X6.  What a play decides.  The winner is the side that played, and
    there is one exactly when that side's hand has become empty, which is
    also exactly when the status is [game_over].  The status is
    [choosing_suit] exactly when the player played an eight and keeps a
    card.  The turn is the player's exactly when the computer played or the
    card is an eight, and a suit is declared exactly when the computer
    played an eight.  The card played is the top card. *)
Theorem playCard_outcome card turn s :
  (winner (playCard card turn s) = Some turn
   ↔ hand turn (playCard card turn s) = [])
  ∧ winner (playCard card turn s) ≠ Some (other turn)
  ∧ (status (playCard card turn s) = game_over
     ↔ hand turn (playCard card turn s) = [])
  ∧ (status (playCard card turn s) = choosing_suit
     ↔ hand turn (playCard card turn s) ≠ []
       ∧ rank card = EIGHT ∧ turn = player)
  ∧ (currentTurn (playCard card turn s) = player
     ↔ turn = ai ∨ rank card = EIGHT)
  ∧ (is_Some (currentSuit (playCard card turn s))
     ↔ rank card = EIGHT ∧ turn = ai)
  ∧ last (discardPile (playCard card turn s)) = Some card.
Proof.
  assert (hand turn (playCard card turn s)
          = filter (λ c, id c ≠ id card) (hand turn s)) as ->
    by (by destruct turn).
  unfold playCard. simpl.
  rewrite is_Some_alt.
  destruct (filter (λ c, id c ≠ id card) (hand turn s)) as [|c h] eqn:Hf;
    simpl.
  - destruct turn, (decide (rank card = EIGHT)) as [Height|Hother];
      rewrite ?(bool_decide_eq_true_2 _ Height),
              ?(bool_decide_eq_false_2 _ Hother); simpl;
      rewrite ?last_snoc; split_and!; try done; intuition congruence.
  - destruct (chooseSuit_choice (c :: h)) as (k & Hk & _).
    destruct turn, (decide (rank card = EIGHT)) as [Height|Hother];
      rewrite ?(bool_decide_eq_true_2 _ Height),
              ?(bool_decide_eq_false_2 _ Hother); simpl;
      rewrite ?Hk, ?last_snoc; split_and!; try done; intuition congruence.
Qed.

(** X7.  [playCard] does not look for the card in the hand.  When no card
    of the side's hand has the id of the card played, the hand is kept as
    it is and the card is put on the discard pile all the same, so the
    state has one card more than before. *)
Theorem playCard_card_not_held card turn s :
  (∀ c, c ∈ hand turn s → id c ≠ id card) →
  hand turn (playCard card turn s) = hand turn s
  ∧ discardPile (playCard card turn s) = discardPile s ++ [card]
  ∧ totalCards (playCard card turn s) = S (totalCards s).
Proof.
  intros Hids.
  assert (filter (λ c, id c ≠ id card) (hand turn s) = hand turn s) as Hf.
  { induction (hand turn s) as [|c h IH]; [done|].
    rewrite filter_cons_True by (apply Hids; by left).
    f_equal. apply IH. intros c' Hc'. apply Hids. by right. }
  assert (hand turn (playCard card turn s) = hand turn s) as Hhand.
  { destruct turn; simpl in *; done. }
  split_and!; [done|done|].
  unfold totalCards. destruct turn; simpl in *; rewrite Hhand, length_app;
    simpl; lia.
Qed.

Lemma playCard_card_not_held_witness :
  hand player (playCard (newCard SPADES ACE) player midgame)
  = hand player midgame
  ∧ discardPile (playCard (newCard SPADES ACE) player midgame)
    = discardPile midgame ++ [newCard SPADES ACE]
  ∧ totalCards (playCard (newCard SPADES ACE) player midgame)
    = S (totalCards midgame).
Proof.
  apply (playCard_card_not_held (newCard SPADES ACE) player midgame).
  intros c Hc. apply list_elem_of_In in Hc. simpl in Hc.
  destruct Hc as [<-|[<-|[<-|[]]]]; discriminate.
Defined.

(** X8.  In a reachable state the play of a card of the mover's hand takes
    exactly that card out of the hand: the hand before is the card played
    together with the hand after, which does not contain the card and has
    one card less, and the state has as many cards as before. *)
Theorem playCard_removes_played_card card turn s :
  reachable s → card ∈ hand turn s →
  hand turn s ≡ₚ card :: hand turn (playCard card turn s)
  ∧ (card ∉ hand turn (playCard card turn s))
  ∧ S (length (hand turn (playCard card turn s))) = length (hand turn s)
  ∧ totalCards (playCard card turn s) = totalCards s.
Proof.
  intros Hs Hin.
  destruct (deck_Permutation_invariant s (reachable_deck s Hs))
    as (_ & Hids & _).
  assert (hand turn (playCard card turn s)
          = filter (λ c, id c ≠ id card) (hand turn s)) as ->
    by (by destruct turn).
  pose proof (filter_played _ _ (distinct_ids_hand turn s Hids) Hin) as Hf.
  split_and!.
  - done.
  - rewrite list_elem_of_filter. by intros [Hne _].
  - by rewrite Hf at 2.
  - rewrite !totalCards_allCards.
    by apply Permutation_length, playCard_allCards.
Qed.

Lemma playCard_removes_played_card_witness :
  hand player (dealt [])
  ≡ₚ newCard HEARTS FIVE
     :: hand player (playCard (newCard HEARTS FIVE) player (dealt []))
  ∧ (newCard HEARTS FIVE
     ∉ hand player (playCard (newCard HEARTS FIVE) player (dealt [])))
  ∧ S (length (hand player
                 (playCard (newCard HEARTS FIVE) player (dealt []))))
    = length (hand player (dealt []))
  ∧ totalCards (playCard (newCard HEARTS FIVE) player (dealt []))
    = totalCards (dealt []).
Proof.
  apply (playCard_removes_played_card (newCard HEARTS FIVE) player (dealt [])).
  - apply (reach_init [] (dealt []) []). vm_compute. reflexivity.
  - compute_done.
Defined.

(** X9.  After an eight the suit of the eight no longer counts.  When the
    player has played an eight and declared a suit, and when the computer
    has played an eight, the eight is the top card, a suit is declared, and
    the valid moves are exactly the eights and the cards of the declared
    suit. *)
Theorem eight_then_declared_suit eight s :
  rank eight = EIGHT →
  (∀ declared card,
     last (discardPile (selectSuit declared (playCard eight player s)))
     = Some eight
     ∧ currentSuit (selectSuit declared (playCard eight player s))
       = Some declared
     ∧ (isValidMove card eight
          (currentSuit (selectSuit declared (playCard eight player s)))
        = true
        ↔ rank card = EIGHT ∨ suit card = declared))
  ∧ (∃ chosen,
       currentSuit (playCard eight ai s) = Some chosen
       ∧ last (discardPile (playCard eight ai s)) = Some eight
       ∧ ∀ card,
           isValidMove card eight (currentSuit (playCard eight ai s)) = true
           ↔ rank card = EIGHT ∨ suit card = chosen).
Proof.
  intros Height.
  assert (∀ card declared,
            isValidMove card eight (Some declared) = true
            ↔ rank card = EIGHT ∨ suit card = declared) as Hvalid.
  { intros card declared. unfold isValidMove. rewrite Height. simpl.
    case_bool_decide; [by intuition|].
    rewrite orb_true_iff, !bool_decide_eq_true. intuition congruence. }
  split.
  - intros declared card. simpl. rewrite last_snoc. split_and!; try done.
  - unfold playCard. simpl. rewrite bool_decide_eq_true_2 by done. simpl.
    destruct (chooseSuit_choice (filter (λ c, id c ≠ id eight) (aiHand s)))
      as (chosen & -> & _).
    exists chosen. rewrite last_snoc. split_and!; try done.
Qed.

Lemma eight_then_declared_suit_witness :
  (∀ declared card,
     last (discardPile
             (selectSuit declared
                (playCard (newCard SPADES EIGHT) player midgame)))
     = Some (newCard SPADES EIGHT)
     ∧ currentSuit (selectSuit declared
                      (playCard (newCard SPADES EIGHT) player midgame))
       = Some declared
     ∧ (isValidMove card (newCard SPADES EIGHT)
          (currentSuit (selectSuit declared
                          (playCard (newCard SPADES EIGHT) player midgame)))
        = true
        ↔ rank card = EIGHT ∨ suit card = declared))
  ∧ (∃ chosen,
       currentSuit (playCard (newCard SPADES EIGHT) ai midgame) = Some chosen
       ∧ last (discardPile (playCard (newCard SPADES EIGHT) ai midgame))
         = Some (newCard SPADES EIGHT)
       ∧ ∀ card,
           isValidMove card (newCard SPADES EIGHT)
             (currentSuit (playCard (newCard SPADES EIGHT) ai midgame))
           = true
           ↔ rank card = EIGHT ∨ suit card = chosen).
Proof.
  apply (eight_then_declared_suit (newCard SPADES EIGHT) midgame).
  reflexivity.
Defined.

(** X10.  In every reachable state the discard pile has a card, so that
    there is a top card to play on. *)
Theorem reachable_top_card s :
  reachable s → ∃ topCard, last (discardPile s) = Some topCard.
Proof.
  induction 1 as [t s t' Hinit|s turn t s' t' _ IH Hdraw
                 |s card turn _ IH Hin|s suit _ IH|s _ IH].
  - destruct (initGame_deals t) as (d & rest & top & _ & _ & _ & Heq).
    rewrite Heq in Hinit. injection Hinit as <- _. by exists top.
  - destruct (drawCard_effect _ _ _ _ _ Hdraw) as (_ & _ & _ & Hl & _).
    by rewrite Hl.
  - exists card. simpl. apply last_snoc.
  - done.
  - done.
Qed.

Lemma reachable_top_card_witness :
  ∃ topCard, last (discardPile (dealt [])) = Some topCard.
Proof.
  apply (reachable_top_card (dealt [])).
  apply (reach_init [] (dealt []) []). vm_compute. reflexivity.
Defined.

(** ** App.tsx: the computer's move *)

Lemma random_below_lt n t : 0 < n → (random_below n t).1 < n.
Proof.
  intros Hn. destruct t as [|r t]; simpl; [done|].
  apply Nat.mod_upper_bound. lia.
Qed.

(** The decision is always made. *)
Lemma aiAction_choice state topCard t :
  ∃ action t',
    aiAction state topCard t = Some (action, t')
    ∧ (t' = t ∨ t' = drop 1 t).
Proof.
  unfold aiAction.
  set (playableCards :=
         filter (λ c, isValidMove c topCard (currentSuit state))
                (aiHand state)).
  set (nonEights := filter (λ c, rank c ≠ EIGHT) playableCards).
  case_bool_decide as Hsome; [|by eauto].
  case_bool_decide as Hnon.
  - pose proof (random_below_lt (length nonEights) t Hnon) as Hj.
    pose proof (random_below_tape (length nonEights) t) as Htape.
    destruct (random_below (length nonEights) t) as [j t']. simpl in *.
    destruct (lookup_lt_is_Some_2 nonEights j Hj) as [c ->]. simpl. eauto.
  - destruct (lookup_lt_is_Some_2 playableCards 0 Hsome) as [c ->].
    simpl. eauto.
Qed.

(** The decision follows the rules and prefers the cards that are no
    eights. *)
Lemma aiAction_rules state topCard t :
  ∃ action t',
    aiAction state topCard t = Some (action, t')
    ∧ match action with
      | AiPlay cardToPlay =>
          cardToPlay ∈ aiHand state
          ∧ isValidMove cardToPlay topCard (currentSuit state) = true
          ∧ (rank cardToPlay = EIGHT →
             ∀ c, c ∈ aiHand state →
                  isValidMove c topCard (currentSuit state) = true →
                  rank c = EIGHT)
      | AiDraw =>
          ∀ c, c ∈ aiHand state →
               isValidMove c topCard (currentSuit state) = false
      end.
Proof.
  unfold aiAction.
  set (playableCards :=
         filter (λ c, isValidMove c topCard (currentSuit state))
                (aiHand state)).
  set (nonEights := filter (λ c, rank c ≠ EIGHT) playableCards).
  assert (∀ c, c ∈ playableCards
               ↔ isValidMove c topCard (currentSuit state) = true
                 ∧ c ∈ aiHand state) as Hplayable.
  { intros c. unfold playableCards.
    by rewrite list_elem_of_filter, Is_true_true. }
  case_bool_decide as Hsome.
  - case_bool_decide as Hnon.
    + pose proof (random_below_lt (length nonEights) t Hnon) as Hj.
      destruct (random_below (length nonEights) t) as [j t']. simpl in Hj.
      destruct (lookup_lt_is_Some_2 nonEights j Hj) as [c Hc].
      rewrite Hc. simpl. eexists _, _. split; [done|].
      apply list_elem_of_lookup_2 in Hc.
      apply list_elem_of_filter in Hc as [Hrank Hc].
      apply Hplayable in Hc as [Hvalid Hc]. done.
    + destruct (lookup_lt_is_Some_2 playableCards 0 Hsome) as [c Hc].
      rewrite Hc. simpl. eexists _, _. split; [done|].
      apply list_elem_of_lookup_2 in Hc. apply Hplayable in Hc as [Hvalid Hc].
      split_and!; [done|done|]. intros _ c' Hc' Hvalid'.
      destruct (decide (rank c' = EIGHT)) as [|Hne]; [done|].
      exfalso. apply Hnon.
      assert (c' ∈ nonEights) as Hin.
      { apply list_elem_of_filter. split; [done|]. by apply Hplayable. }
      destruct nonEights; [by apply elem_of_nil in Hin|simpl; lia].
  - eexists _, _. split; [done|]. intros c Hc.
    destruct (isValidMove c topCard (currentSuit state)) eqn:Hvalid; [|done].
    exfalso. apply Hsome.
    assert (c ∈ playableCards) as Hin by (by apply Hplayable).
    destruct playableCards; [by apply elem_of_nil in Hin|simpl; lia].
Qed.

(** X11.  The computer's decision never reads outside its arrays and calls
    [Math.random] at most once.  It is a rule-abiding one: a card it plays
    is in its hand and is a valid move; it plays an eight only when all the
    valid moves of its hand are eights; and it draws only when no card of
    its hand is a valid move. *)
Theorem aiAction_spec state topCard t :
  ∃ action t',
    aiAction state topCard t = Some (action, t')
    ∧ (t' = t ∨ t' = drop 1 t)
    ∧ match action with
      | AiPlay cardToPlay =>
          cardToPlay ∈ aiHand state
          ∧ isValidMove cardToPlay topCard (currentSuit state) = true
          ∧ (rank cardToPlay = EIGHT →
             ∀ c, c ∈ aiHand state →
                  isValidMove c topCard (currentSuit state) = true →
                  rank c = EIGHT)
      | AiDraw =>
          ∀ c, c ∈ aiHand state →
               isValidMove c topCard (currentSuit state) = false
      end.
Proof.
  destruct (aiAction_rules state topCard t) as (action & t' & Heq & Hrules).
  destruct (aiAction_choice state topCard t) as (action' & t'' & Heq' & Ht).
  rewrite Heq in Heq'. injection Heq' as <- <-.
  by exists action, t'.
Qed.

(** A play of the computer gives the turn to the player and asks for no
    suit. *)
Lemma playCard_ai card s :
  currentTurn (playCard card ai s) = player
  ∧ (status (playCard card ai s) = playing
     ∨ status (playCard card ai s) = game_over)
  ∧ winner (playCard card ai s) ≠ Some player
  ∧ playerHand (playCard card ai s) = playerHand s.
Proof.
  unfold playCard. simpl. rewrite andb_false_r. simpl.
  split_and!; try done; case_bool_decide; simpl; auto.
Qed.

(** X12.  The computer's turn always produces a state.  When the status is
    [playing], the turn is the computer's and there is no winner, it plays
    or draws: the turn is the player's afterwards, the status is [playing]
    or [game_over] and never [choosing_suit], the player is not the winner
    and the player's hand is untouched.  In any other state it does
    nothing. *)
Theorem aiTurn_spec state topCard t :
  ∃ s' t',
    aiTurn state topCard t = Some (s', t')
    ∧ (status state = playing ∧ currentTurn state = ai
       ∧ winner state = None →
       currentTurn s' = player
       ∧ (status s' = playing ∨ status s' = game_over)
       ∧ winner s' ≠ Some player
       ∧ playerHand s' = playerHand state)
    ∧ (¬ (status state = playing ∧ currentTurn state = ai
          ∧ winner state = None) →
       s' = state ∧ t' = t).
Proof.
  unfold aiTurn.
  destruct (decide (status state = playing ∧ currentTurn state = ai
                    ∧ winner state = None)) as [(Hst & Hturn & Hwin)|Hno].
  - rewrite !bool_decide_eq_true_2 by done. simpl.
    destruct (aiAction_choice state topCard t) as (action & t' & -> & _).
    simpl. destruct action as [card|].
    + eexists _, _. split; [done|]. split; [|tauto].
      intros _. apply playCard_ai.
    + destruct (drawCard_total ai state t') as [[s' t''] Hdraw].
      exists s', t''. split; [done|]. split; [|tauto]. intros _.
      destruct (decide (length (deck state) = 0)) as [Hdeck|Hdeck].
      * destruct (decide (length (discardPile state) ≤ 1)) as [Hdisc|Hdisc].
        -- rewrite drawCard_exhausted in Hdraw by done.
           injection Hdraw as <- <-. simpl. rewrite Hst, Hwin. auto.
        -- destruct (drawCard_recycle ai state t')
             as (? & ? & ? & ? & _ & _ & Heq); [done|lia|].
           rewrite Heq in Hdraw. injection Hdraw as <- <-. simpl.
           rewrite Hst, Hwin. auto.
      * destruct (drawCard_from_deck ai state t')
          as (? & ? & _ & Heq); [lia|].
        rewrite Heq in Hdraw. injection Hdraw as <- <-. simpl.
        rewrite Hst, Hwin. auto.
  - assert (bool_decide (status state = playing)
            && bool_decide (currentTurn state = ai)
            && bool_decide (winner state = None) = false) as ->.
    { apply not_true_is_false. rewrite !andb_true_iff, !bool_decide_eq_true.
      tauto. }
    eexists _, _. split; [done|]. split; [tauto|done].
Qed.

(** ** App.tsx: the controls *)

Lemma canPlayerMove_false state topCard :
  currentTurn state = player → status state = playing →
  canPlayerMove state topCard = false →
  ∀ c, c ∈ playerHand state →
       isValidMove c topCard (currentSuit state) = false.
Proof.
  intros Hturn Hst. unfold canPlayerMove.
  rewrite !bool_decide_eq_false_2 by (intros Hne; by apply Hne). simpl.
  intros Hnone c Hc. apply list_elem_of_In in Hc.
  destruct (isValidMove c topCard (currentSuit state)) eqn:Hvalid; [|done].
  assert (existsb (λ c, isValidMove c topCard (currentSuit state))
                  (playerHand state) = true) as Hsome.
  { apply existsb_exists. eauto. }
  congruence.
Qed.

(** Every event that is handled is a step of a game played by the rules. *)
Lemma dispatch_legal_step exiting e s t s' t' :
  exiting_ok s exiting →
  dispatch exiting e s t = Some (s', t') → legal_step s s'.
Proof.
  intros Hexit. unfold dispatch. case_bool_decide as Hwait.
  - destruct e; try (intros [= <- _]; by constructor).
    intros Hinit. eapply step_deal; [by left|done].
  - rewrite last_index.
    destruct (last (discardPile s)) as [topCard|] eqn:Htop; [|done]. simpl.
    destruct e.
    + case_bool_decide as Hover; simpl.
      { intros Hinit. eapply step_deal; [by right|done]. }
      case_bool_decide as Hx; [|intros [= <- _]; by constructor].
      intros Hinit. rewrite Hx in Hexit. destruct Hexit as (t0 & t0' & Hdealt).
      by eapply step_deal_again.
    + intros [= <- _]. by constructor.
    + unfold drawDisabled.
      destruct (decide (currentTurn s = player)) as [Hturn|Hturn];
        [|rewrite (bool_decide_eq_true_2 (currentTurn s ≠ player)) by done;
          simpl; intros [= <- _]; by constructor].
      rewrite (bool_decide_eq_false_2 (currentTurn s ≠ player))
        by (intros Hne; by apply Hne).
      rewrite (bool_decide_eq_true_2 (currentTurn s = player)) by done.
      simpl.
      destruct (canPlayerMove s topCard) eqn:Hcan;
        [simpl; intros [= <- _]; by constructor|].
      simpl.
      destruct (decide (status s = playing)) as [Hst|Hst];
        [|rewrite bool_decide_eq_true_2 by done;
          intros [= <- _]; by constructor].
      rewrite bool_decide_eq_false_2 by (intros Hne; by apply Hne).
      intros Hdraw.
      eapply step_draw; [done|done| |by rewrite Hturn].
      rewrite Hturn. simpl. by apply canPlayerMove_false.
    + unfold playable.
      destruct (decide (card ∈ playerHand s ∧ currentTurn s = player
                        ∧ status s = playing
                        ∧ isValidMove card topCard (currentSuit s) = true))
        as [(Hin & Hturn & Hst & Hvalid)|Hno].
      * rewrite !bool_decide_eq_true_2, Hvalid by done. simpl.
        intros [= <- _]. rewrite <- Hturn.
        eapply step_play; try done. by rewrite Hturn.
      * assert (bool_decide (card ∈ playerHand s)
                && (bool_decide (currentTurn s = player)
                    && bool_decide (status s = playing)
                    && isValidMove card topCard (currentSuit s)) = false)
          as ->.
        { apply not_true_is_false.
          rewrite !andb_true_iff, !bool_decide_eq_true. tauto. }
        intros [= <- _]. by constructor.
    + case_bool_decide as Hst; simpl.
      { intros [= <- _]. by constructor. }
      case_bool_decide as Hx; intros [= <- _]; [|by constructor].
      rewrite Hx in Hexit. destruct Hexit as (s0 & declared & Hst0 & Hs).
      by eapply step_suit_again.
    + unfold aiTurn.
      destruct (decide (status s = playing ∧ currentTurn s = ai
                        ∧ winner s = None)) as [(Hst & Hturn & Hwin)|Hno].
      * rewrite !bool_decide_eq_true_2 by done. simpl.
        destruct (aiAction_rules s topCard t)
          as (action & t0 & -> & Hrules).
        simpl. destruct action as [card|].
        -- destruct Hrules as (Hin & Hvalid & _). intros [= <- _].
           rewrite <- Hturn. eapply step_play; try done. by rewrite Hturn.
        -- intros Hdraw.
           eapply step_draw; [done|done| |by rewrite Hturn].
           by rewrite Hturn.
      * assert (bool_decide (status s = playing)
                && bool_decide (currentTurn s = ai)
                && bool_decide (winner s = None) = false) as ->.
        { apply not_true_is_false.
          rewrite !andb_true_iff, !bool_decide_eq_true. tauto. }
        intros [= <- _]. by constructor.
Qed.

(** ** The invariant of the application *)

Lemma last_not_nil {A : Type} (l : list A) x : last l = Some x → l ≠ [].
Proof. by intros Hl ->. Qed.

Lemma game_invariant_initGame t s t' :
  initGame t = Some (s, t') → game_invariant s.
Proof.
  intros Hinit. pose proof (initGame_allCards _ _ _ Hinit) as Hperm.
  destruct (initGame_deals t) as (d & rest & top & _ & Hd & _ & Heq).
  rewrite Heq in Hinit. injection Hinit as <- _.
  assert (length d = 52) as Hlen by (by rewrite Hd).
  unfold game_invariant. simpl. split_and!; try done.
  - intros _. split_and!; [done| |].
    + intros Hnil%(f_equal length).
      rewrite length_take, Hlen in Hnil. by simpl in Hnil.
    + intros Hnil%(f_equal length).
      rewrite length_take, length_drop, Hlen in Hnil. by simpl in Hnil.
Qed.

Lemma game_invariant_drawCard turn s t s' t' :
  game_invariant s → status s = playing →
  drawCard turn s t = Some (s', t') → game_invariant s'.
Proof.
  intros (Hperm & Hdisc & Hrun & Hover & Hwin & Hask & Hsuit) Hst Hdraw.
  destruct (drawCard_effect _ _ _ _ _ Hdraw)
    as (Hst' & Hwin' & Hsuit' & Hlast & Hother & Hhand & _).
  destruct (Hrun (or_introl Hst)) as (Hnone & Hp & Ha).
  assert (hand turn s' ≠ [] ∧ hand (other turn) s' ≠ []) as [Hturn' Hother'].
  { rewrite Hother. split; [|by destruct turn].
    destruct Hhand as [->|[card ->]]; [by destruct turn|].
    by destruct (hand turn s). }
  unfold game_invariant, top_is_eight.
  rewrite Hst', Hwin', Hsuit', Hlast, Hst, Hnone.
  split_and!; try done.
  - by rewrite (drawCard_allCards _ _ _ _ _ Hdraw).
  - destruct (last_is_Some (discardPile s) Hdisc) as [top Htop].
    rewrite <- Hlast in Htop. by eapply last_not_nil.
  - intros _. split; [done|]. by destruct turn.
Qed.

Lemma game_invariant_playCard card s :
  game_invariant s → status s = playing →
  card ∈ hand (currentTurn s) s →
  game_invariant (playCard card (currentTurn s) s).
Proof.
  intros (Hperm & Hdisc & Hrun & Hover & Hwin & Hask & Hsuit) Hst Hin.
  destruct (Hrun (or_introl Hst)) as (Hnone & Hp & Ha).
  destruct (deck_Permutation_invariant s Hperm) as (_ & Hids & _).
  pose proof (filter_played _ _ (distinct_ids_hand (currentTurn s) s Hids) Hin)
    as Hf.
  assert (allCards (playCard card (currentTurn s) s) ≡ₚ orderedDeck) as Hperm'.
  { by rewrite playCard_allCards. }
  assert (top_is_eight (playCard card (currentTurn s) s) ↔ rank card = EIGHT)
    as Htop.
  { unfold top_is_eight. simpl. rewrite last_snoc. split.
    - by intros (? & [= <-] & ?).
    - intros Height. by exists card. }
  unfold game_invariant. split; [done|]. split; [simpl; by destruct (discardPile s)|].
  rewrite Htop. clear Htop Hperm' Hf Hperm.
  unfold playCard. simpl.
  destruct (currentTurn s), (filter (λ c, id c ≠ id card) _) as [|c h],
    (decide (rank card = EIGHT)) as [Height|Hother];
    rewrite ?(bool_decide_eq_true_2 _ Height),
            ?(bool_decide_eq_false_2 _ Hother); simpl in *;
    (split_and!;
     [ intros [[=]|[=]]; done
     | first [by intros [=]|by eauto]
     | intros [] [=]; done
     | try done; intros [=]
     | try done; by intros [? [=]] ]).
Qed.

Lemma game_invariant_selectSuit suit s :
  game_invariant s → status s = choosing_suit →
  game_invariant (selectSuit suit s).
Proof.
  intros (Hperm & Hdisc & Hrun & Hover & Hwin & Hask & Hsuit) Hst.
  destruct (Hrun (or_intror Hst)) as (Hnone & Hp & Ha).
  destruct (Hask Hst) as (_ & _ & Htop).
  unfold game_invariant, top_is_eight in *. simpl.
  by split_and!.
Qed.

Lemma game_invariant_backToMenu s :
  game_invariant s → game_invariant (backToMenu s).
Proof.
  intros (Hperm & Hdisc & Hrun & Hover & Hwin & Hask & Hsuit).
  unfold game_invariant, top_is_eight in *. simpl.
  split_and!; try done. by intros [[=]|[=]].
Qed.

(** A suit declared over a declared suit. *)
Lemma game_invariant_selectSuit_again suit s :
  game_invariant s → status s = playing → is_Some (currentSuit s) →
  game_invariant (selectSuit suit s).
Proof.
  intros (Hperm & Hdisc & Hrun & Hover & Hwin & Hask & Hsuit) Hst Hdecl.
  destruct (Hrun (or_introl Hst)) as (Hnone & Hp & Ha).
  pose proof (Hsuit Hdecl) as Htop.
  unfold game_invariant, top_is_eight in *. simpl.
  by split_and!.
Qed.

Lemma legal_step_invariant s s' :
  legal_step s s' →
  s = initialState ∨ game_invariant s →
  s' = initialState ∨ game_invariant s'.
Proof.
  intros Hstep Hinv.
  destruct Hstep as [|t s' t' _ Hinit|Hst|suit Hst|top card Hst Htop Hin Hvalid
                    |top t s' t' Hst Htop Hnone Hdraw
                    |s0 suit0 suit Hst0 Hs|t0 t0' t s' t' _ Hinit].
  - done.
  - right. by eapply game_invariant_initGame.
  - destruct Hinv as [->|Hinv]; [done|].
    right. by apply game_invariant_backToMenu.
  - destruct Hinv as [->|Hinv]; [done|].
    right. by apply game_invariant_selectSuit.
  - destruct Hinv as [->|Hinv]; [done|].
    right. by apply game_invariant_playCard.
  - destruct Hinv as [->|Hinv]; [done|].
    right. by eapply game_invariant_drawCard.
  - destruct Hinv as [Hinit|Hinv]; [by rewrite Hinit in Hs|].
    right. apply game_invariant_selectSuit_again; [done| |]; rewrite Hs; simpl;
      eauto.
  - right. by eapply game_invariant_initGame.
Qed.

(** After an event the modal that exits fits the state. *)
Lemma exiting_after_ok exiting e s t s' t' :
  exiting_ok s exiting →
  dispatch exiting e s t = Some (s', t') →
  exiting_ok s' (exiting_after exiting e s).
Proof.
  intros Hexit. unfold dispatch, exiting_after.
  case_bool_decide as Hwait; [done|].
  destruct (discardPile s !! (length (discardPile s) - 1)) as [topCard|];
    [|done].
  simpl. destruct e as [| | |card|su|]; try done.
  - destruct (bool_decide (status s = game_over)
              || bool_decide (exiting = GameOverModalExiting)).
    + intros Hinit. simpl. eauto.
    + by intros [= <- _].
  - case_bool_decide as Hst; simpl.
    { intros [= <- _]. by exists s, su. }
    case_bool_decide as Hx; intros [= <- _]; [|done].
    rewrite Hx in Hexit. destruct Hexit as (s0 & declared & Hst0 & ->).
    by exists s0, su.
Qed.

Lemma ui_run_invariant s exiting :
  ui_run s exiting →
  (s = initialState ∨ game_invariant s) ∧ exiting_ok s exiting.
Proof.
  induction 1 as [|s exiting e t s' t' _ [IH Hexit] Hd]; [by split; [left|]|].
  split.
  - eapply legal_step_invariant; [|done]. by eapply dispatch_legal_step.
  - by eapply exiting_after_ok.
Qed.

Lemma ui_reachable_invariant s :
  ui_reachable s → s = initialState ∨ game_invariant s.
Proof. intros [exiting Hrun]. by apply (ui_run_invariant s exiting). Qed.

(** The run after a click on the start button, after the player's click on
    the eight of hearts that follows, and after the click on the clubs
    button that follows. *)
Lemma ui_run_dealt : ui_run (dealt []) NothingExiting.
Proof.
  apply (run_event initialState NothingExiting ClickStart [] (dealt []) []);
    [constructor|].
  vm_compute. reflexivity.
Qed.

Lemma ui_run_eight_played :
  ui_run (playCard (newCard HEARTS EIGHT) player (dealt [])) NothingExiting.
Proof.
  apply (run_event (dealt []) NothingExiting
                   (ClickCard (newCard HEARTS EIGHT)) []
                   (playCard (newCard HEARTS EIGHT) player (dealt [])) []);
    [apply ui_run_dealt|].
  vm_compute. reflexivity.
Qed.

Lemma ui_run_suit_declared :
  ui_run (selectSuit CLUBS (playCard (newCard HEARTS EIGHT) player (dealt [])))
         SuitModalExiting.
Proof.
  apply (run_event (playCard (newCard HEARTS EIGHT) player (dealt []))
                   NothingExiting (ClickSuit CLUBS) []
                   (selectSuit CLUBS
                      (playCard (newCard HEARTS EIGHT) player (dealt []))) []);
    [apply ui_run_eight_played|].
  vm_compute. reflexivity.
Qed.

Lemma ui_reachable_dealt : ui_reachable (dealt []).
Proof. exists NothingExiting. apply ui_run_dealt. Qed.

Lemma ui_reachable_eight_played :
  ui_reachable (playCard (newCard HEARTS EIGHT) player (dealt [])).
Proof. exists NothingExiting. apply ui_run_eight_played. Qed.

(** X13.  The application keeps the cards in order.  In every state it
    reaches, either no game has been dealt yet, or the piles and hands hold
    the 52 cards of the deck, no card identity twice, and there is a top
    card on the discard pile. *)
Theorem ui_reachable_cards s :
  ui_reachable s →
  s = initialState
  ∨ (partition_invariant s ∧ allCards s ≡ₚ orderedDeck
     ∧ ∃ topCard, last (discardPile s) = Some topCard).
Proof.
  intros [->|(Hperm & Hdisc & _)]%ui_reachable_invariant; [by left|].
  right. split_and!; [|done|].
  - by apply deck_Permutation_invariant.
  - destruct (last_is_Some (discardPile s) Hdisc) as [top Htop]. eauto.
Qed.

Lemma ui_reachable_cards_witness :
  dealt [] = initialState
  ∨ (partition_invariant (dealt []) ∧ allCards (dealt []) ≡ₚ orderedDeck
     ∧ ∃ topCard, last (discardPile (dealt [])) = Some topCard).
Proof. apply (ui_reachable_cards (dealt [])), ui_reachable_dealt. Defined.

(** X14.  The application keeps the status, the winner and the hands in
    step.  In every state it reaches: while the status is [playing] or
    [choosing_suit] there is no winner and both hands have cards; when the
    status is [game_over] there is a winner; and a winner has no card left
    while the other side has some. *)
Theorem ui_reachable_winner s :
  ui_reachable s →
  (status s = playing ∨ status s = choosing_suit →
   winner s = None ∧ playerHand s ≠ [] ∧ aiHand s ≠ [])
  ∧ (status s = game_over → is_Some (winner s))
  ∧ (∀ w, winner s = Some w → hand w s = [] ∧ hand (other w) s ≠ []).
Proof.
  intros [->|(_ & _ & Hrun & Hover & Hwin & _)]%ui_reachable_invariant.
  - simpl. split_and!; [by intros [[=]|[=]]|by intros [=]|by intros w [=]].
  - done.
Qed.

Lemma ui_reachable_winner_witness :
  (status (dealt []) = playing ∨ status (dealt []) = choosing_suit →
   winner (dealt []) = None ∧ playerHand (dealt []) ≠ []
   ∧ aiHand (dealt []) ≠ [])
  ∧ (status (dealt []) = game_over → is_Some (winner (dealt [])))
  ∧ (∀ w, winner (dealt []) = Some w →
          hand w (dealt []) = [] ∧ hand (other w) (dealt []) ≠ []).
Proof. apply (ui_reachable_winner (dealt [])), ui_reachable_dealt. Defined.

(** X15.  The application asks for a suit, and has a suit declared, only on
    an eight.  In every state it reaches: when the status is
    [choosing_suit] the turn is the player's, no suit is declared and the
    top card is an eight; and whenever a suit is declared the top card is an
    eight. *)
Theorem ui_reachable_declared_suit s :
  ui_reachable s →
  (status s = choosing_suit →
   currentTurn s = player ∧ currentSuit s = None ∧ top_is_eight s)
  ∧ (is_Some (currentSuit s) → top_is_eight s).
Proof.
  intros [->|(_ & _ & _ & _ & _ & Hask & Hsuit)]%ui_reachable_invariant.
  - simpl. split; [by intros [=]|by intros [? [=]]].
  - done.
Qed.

Lemma ui_reachable_declared_suit_witness :
  (status (playCard (newCard HEARTS EIGHT) player (dealt [])) = choosing_suit →
   currentTurn (playCard (newCard HEARTS EIGHT) player (dealt [])) = player
   ∧ currentSuit (playCard (newCard HEARTS EIGHT) player (dealt [])) = None
   ∧ top_is_eight (playCard (newCard HEARTS EIGHT) player (dealt [])))
  ∧ (is_Some (currentSuit (playCard (newCard HEARTS EIGHT) player (dealt [])))
     → top_is_eight (playCard (newCard HEARTS EIGHT) player (dealt []))).
Proof.
  apply (ui_reachable_declared_suit
           (playCard (newCard HEARTS EIGHT) player (dealt []))).
  apply ui_reachable_eight_played.
Defined.

(** ** The events *)

Lemma aiTurn_total state topCard t : is_Some (aiTurn state topCard t).
Proof.
  unfold aiTurn.
  destruct (bool_decide (status state = playing)
            && bool_decide (currentTurn state = ai)
            && bool_decide (winner state = None)); [|eauto].
  destruct (aiAction_choice state topCard t) as (action & t' & -> & _).
  simpl. destruct action; [eauto|apply drawCard_total].
Qed.

Lemma dispatch_total exiting e s t :
  s = initialState ∨ game_invariant s → is_Some (dispatch exiting e s t).
Proof.
  intros Hinv.
  assert (is_Some (initGame t)) as Hinit.
  { destruct (initGame_deals t) as (? & ? & ? & _ & _ & _ & ->). eauto. }
  unfold dispatch. case_bool_decide as Hwait.
  - destruct e; eauto.
  - destruct Hinv as [->|(_ & Hdisc & _)]; [done|].
    rewrite last_index.
    destruct (last_is_Some (discardPile s) Hdisc) as [topCard ->]. simpl.
    destruct e.
    + destruct (bool_decide (status s = game_over)
                || bool_decide (exiting = GameOverModalExiting)); eauto.
    + eauto.
    + destruct (drawDisabled s topCard); [eauto|].
      destruct (bool_decide (currentTurn s = player)
                && negb (canPlayerMove s topCard)); [|eauto].
      apply drawCard_total.
    + destruct (bool_decide (card ∈ playerHand s) && playable s topCard card);
        eauto.
    + destruct (bool_decide (status s = choosing_suit)
                || bool_decide (exiting = SuitModalExiting)); eauto.
    + apply aiTurn_total.
Qed.

(** X16.  The application handles every event at every point of its runs,
    the clicks on the buttons of a modal that is exiting among them: the
    render finds a top card, no array is read outside its bounds, and the
    state that results is the old one or comes from it by a step of a game
    played by the rules.  A card is only played by the side whose turn it
    is, from its hand, as a valid move, while the status is [playing]; a
    side only draws when none of its cards is a valid move; a suit is only
    declared when one is asked for, or in place of the suit just declared;
    and a deal is only made from the menu, after a game, or in place of the
    deal just made. *)
Theorem ui_event_legal s exiting e t :
  ui_run s exiting →
  ∃ s' t',
    dispatch exiting e s t = Some (s', t')
    ∧ legal_step s s'
    ∧ ui_run s' (exiting_after exiting e s).
Proof.
  intros Hrun.
  destruct (ui_run_invariant s exiting Hrun) as [Hinv Hexit].
  destruct (dispatch_total exiting e s t Hinv) as [[s' t'] Hd].
  exists s', t'. split_and!; [done| |].
  - by eapply dispatch_legal_step.
  - by eapply run_event.
Qed.

Lemma ui_event_legal_witness :
  ∃ s' t',
    dispatch SuitModalExiting (ClickSuit SPADES)
      (selectSuit CLUBS (playCard (newCard HEARTS EIGHT) player (dealt [])))
      [6; 1]
    = Some (s', t')
    ∧ legal_step
        (selectSuit CLUBS (playCard (newCard HEARTS EIGHT) player (dealt [])))
        s'
    ∧ ui_run s'
        (exiting_after SuitModalExiting (ClickSuit SPADES)
           (selectSuit CLUBS
              (playCard (newCard HEARTS EIGHT) player (dealt [])))).
Proof.
  apply (ui_event_legal
           (selectSuit CLUBS (playCard (newCard HEARTS EIGHT) player (dealt [])))
           SuitModalExiting (ClickSuit SPADES) [6; 1]).
  apply ui_run_suit_declared.
Defined.

(** X17.  While the status is [playing] the application is never stuck.  On
    the computer's turn the timer plays or draws and the turn becomes the
    player's.  On the player's turn either a card of the player's hand can
    be clicked and is played, or the draw button is enabled, and the click
    on it (a draw, or the loss of the turn when no card is left to draw)
    gives the turn to the computer. *)
Theorem ui_playing_progress s t exiting :
  ui_reachable s → status s = playing →
  (currentTurn s = ai →
   ∃ s' t',
     dispatch exiting AiTimer s t = Some (s', t') ∧ currentTurn s' = player)
  ∧ (currentTurn s = player →
     (∃ card,
        card ∈ playerHand s
        ∧ dispatch exiting (ClickCard card) s t
          = Some (playCard card player s, t))
     ∨ (∃ s' t',
          dispatch exiting ClickDraw s t = Some (s', t')
          ∧ drawCard player s t = Some (s', t')
          ∧ currentTurn s' = ai)).
Proof.
  intros Hs Hst.
  destruct (ui_reachable_invariant s Hs) as [->|(_ & Hdisc & Hrun & _)];
    [done|].
  destruct (Hrun (or_introl Hst)) as (Hnone & _).
  destruct (last_is_Some (discardPile s) Hdisc) as [topCard Htop].
  unfold dispatch. rewrite bool_decide_eq_false_2 by (by rewrite Hst).
  rewrite last_index, Htop. simpl. split.
  - intros Hturn. unfold aiTurn.
    rewrite !bool_decide_eq_true_2 by done. simpl.
    destruct (aiAction_choice s topCard t) as (action & t' & -> & _).
    simpl. destruct action as [card|].
    + eexists _, _. split; [done|]. apply playCard_ai.
    + destruct (drawCard_total ai s t') as [[s' t''] Hdraw].
      exists s', t''. split; [done|].
      by destruct (drawCard_effect _ _ _ _ _ Hdraw) as (_ & _ & _ & _ & _ & _ & ->).
  - intros Hturn. unfold drawDisabled, playable.
    rewrite (bool_decide_eq_false_2 (currentTurn s ≠ player))
      by (intros Hne; by apply Hne).
    rewrite (bool_decide_eq_false_2 (status s ≠ playing))
      by (intros Hne; by apply Hne).
    rewrite !(bool_decide_eq_true_2 (currentTurn s = player)) by done.
    rewrite (bool_decide_eq_true_2 (status s = playing)) by done.
    destruct (canPlayerMove s topCard) eqn:Hcan; simpl.
    + left. unfold canPlayerMove in Hcan.
      rewrite !bool_decide_eq_false_2 in Hcan by (intros Hne; by apply Hne).
      simpl in Hcan. apply existsb_exists in Hcan as (card & Hin & Hvalid).
      apply list_elem_of_In in Hin. exists card. split; [done|].
      by rewrite bool_decide_eq_true_2, Hvalid by done.
    + right. destruct (drawCard_total player s t) as [[s' t'] Hdraw].
      exists s', t'. split_and!; [done|done|].
      by destruct (drawCard_effect _ _ _ _ _ Hdraw) as (_ & _ & _ & _ & _ & _ & ->).
Qed.

Lemma ui_playing_progress_witness :
  (currentTurn (dealt []) = ai →
   ∃ s' t',
     dispatch NothingExiting AiTimer (dealt []) [3] = Some (s', t')
     ∧ currentTurn s' = player)
  ∧ (currentTurn (dealt []) = player →
     (∃ card,
        card ∈ playerHand (dealt [])
        ∧ dispatch NothingExiting (ClickCard card) (dealt []) [3]
          = Some (playCard card player (dealt []), [3]))
     ∨ (∃ s' t',
          dispatch NothingExiting ClickDraw (dealt []) [3] = Some (s', t')
          ∧ drawCard player (dealt []) [3] = Some (s', t')
          ∧ currentTurn s' = ai)).
Proof.
  apply (ui_playing_progress (dealt []) [3] NothingExiting).
  - apply ui_reachable_dealt.
  - reflexivity.
Defined.

(** X18.  Outside the status [playing] the cards do not move: in every state
    the application reaches with another status, a click on the draw pile,
    a click on a card and the timer of the computer leave the state as it
    is. *)
Theorem ui_idle_outside_playing s t card exiting :
  ui_reachable s → status s ≠ playing →
  dispatch exiting ClickDraw s t = Some (s, t)
  ∧ dispatch exiting (ClickCard card) s t = Some (s, t)
  ∧ dispatch exiting AiTimer s t = Some (s, t).
Proof.
  intros Hs Hst. unfold dispatch. case_bool_decide as Hwait; [done|].
  destruct (ui_reachable_invariant s Hs) as [->|(_ & Hdisc & _)]; [done|].
  rewrite last_index.
  destruct (last_is_Some (discardPile s) Hdisc) as [topCard ->]. simpl.
  unfold drawDisabled, playable, aiTurn.
  rewrite (bool_decide_eq_true_2 (status s ≠ playing)) by done.
  rewrite !(bool_decide_eq_false_2 (status s = playing)) by done.
  by rewrite !orb_true_r, !andb_false_r.
Qed.

Lemma ui_idle_outside_playing_witness :
  dispatch NothingExiting ClickDraw
           (playCard (newCard HEARTS EIGHT) player (dealt [])) [2]
  = Some (playCard (newCard HEARTS EIGHT) player (dealt []), [2])
  ∧ dispatch NothingExiting (ClickCard (newCard HEARTS TWO))
             (playCard (newCard HEARTS EIGHT) player (dealt [])) [2]
    = Some (playCard (newCard HEARTS EIGHT) player (dealt []), [2])
  ∧ dispatch NothingExiting AiTimer
             (playCard (newCard HEARTS EIGHT) player (dealt [])) [2]
    = Some (playCard (newCard HEARTS EIGHT) player (dealt []), [2]).
Proof.
  apply (ui_idle_outside_playing
           (playCard (newCard HEARTS EIGHT) player (dealt [])) [2]
           (newCard HEARTS TWO) NothingExiting).
  - apply ui_reachable_eight_played.
  - vm_compute. discriminate.
Defined.

(** X19.  The computer declares a suit it holds: when the hand it is left
    with is not empty, the suit it chooses is the suit of one of the cards
    of that hand, a card that is then a valid move on the eight. *)
Theorem chooseSuit_held h k eight :
  h ≠ [] → chooseSuit h = Some k → rank eight = EIGHT →
  ∃ c, c ∈ h ∧ suit c = k ∧ isValidMove c eight (Some k) = true.
Proof.
  intros Hne Hk Height.
  destruct (chooseSuit_choice h) as (k' & Hk' & Hmax & _).
  rewrite Hk in Hk'. injection Hk' as <-.
  destruct h as [|c0 h]; [done|].
  assert (0 < suit_count k (c0 :: h)) as Hpos.
  { pose proof (Hmax (suit c0)) as Hle.
    rewrite (suit_count_cons (suit c0)) in Hle.
    destruct (decide (suit c0 = suit c0)); [lia|done]. }
  unfold suit_count in Hpos.
  destruct (filter (λ c, suit c = k) (c0 :: h)) as [|c l] eqn:Hf;
    [simpl in Hpos; lia|].
  assert (c ∈ filter (λ c, suit c = k) (c0 :: h)) as Hc
    by (rewrite Hf; by left).
  apply list_elem_of_filter in Hc as [Hsuit Hc].
  exists c. split_and!; [done|done|].
  unfold isValidMove. case_bool_decide; [done|]. simpl.
  by rewrite bool_decide_eq_true_2.
Qed.

Lemma chooseSuit_held_witness :
  ∃ c,
    c ∈ [newCard DIAMONDS TWO; newCard DIAMONDS THREE]
    ∧ suit c = DIAMONDS
    ∧ isValidMove c (newCard CLUBS EIGHT) (Some DIAMONDS) = true.
Proof.
  apply (chooseSuit_held [newCard DIAMONDS TWO; newCard DIAMONDS THREE]
           DIAMONDS (newCard CLUBS EIGHT)).
  - discriminate.
  - reflexivity.
  - reflexivity.
Defined.
